(** * Gold-layer analytics build: amortization, upserts and KPIs

    A shallow embedding of [src/glue/build_gold_layer/build_gold_analytics.py].
    A pandas DataFrame is a list of row records (row order and duplicates
    matter); a float64 column holds [num] values, where [None] is NaN and the
    finite values are exact rationals (rounding and infinities are not
    modelled); a datetime64 column holds [option Z] ticks, [None] being NaT;
    a Python exception is an explicit error result. *)

From Stdlib Require Import List ZArith QArith Qminmax Bool Lia Lqa.
From Stdlib Require Import Strings.String Strings.Ascii.
From Stdlib Require Import Sorting.Permutation Sorting.Sorted.
From Stdlib Require Import Structures.OrderedTypeEx.
Import ListNotations.

Local Open Scope Q_scope.

(** ** float64 values *)

Definition num := option Q.

Definition NaN : num := None.

Definition isna {A : Type} (x : option A) : bool :=
  match x with None => true | Some _ => false end.

Definition lift2 (f : Q -> Q -> Q) (x y : num) : num :=
  match x, y with
  | Some a, Some b => Some (f a b)
  | _, _ => NaN
  end.

Definition nadd : num -> num -> num := lift2 Qplus.
Definition nsub : num -> num -> num := lift2 Qminus.
Definition nmul : num -> num -> num := lift2 Qmult.

(** float64 division; a zero divisor gives a non-finite value, rendered NaN. *)
Definition ndiv (x y : num) : num :=
  match x, y with
  | Some a, Some b => if Qeq_bool b 0 then NaN else Some (a / b)
  | _, _ => NaN
  end.

(** [x < y] on floats: false as soon as one side is NaN. *)
Definition nltb (x y : num) : bool :=
  match x, y with
  | Some a, Some b => negb (Qle_bool b a)
  | _, _ => false
  end.

(** Python's builtin [min(a, b)]: [b] if [b < a], else [a]. *)
Definition pymin (a b : num) : num := if nltb b a then b else a.

(** Python's builtin [max(a, b)]: [b] if [b > a], else [a]. *)
Definition pymax (a b : num) : num := if nltb a b then b else a.

(** Equality of float cells: both NaN, or equal as rationals. *)
Definition num_eq (x y : num) : Prop :=
  match x, y with
  | Some a, Some b => a == b
  | None, None => True
  | _, _ => False
  end.

Definition num_le (x y : num) : Prop :=
  match x, y with
  | Some a, Some b => a <= b
  | _, _ => False
  end.

Infix "=n=" := num_eq (at level 70, no associativity).

(** ** Generic DataFrame operations *)

Section Frames.
Context {A : Type}.

(** [DataFrame.sort_values] as a stable sort: rows that compare equal keep
    their input order, in either direction, and a missing sort key goes
    last.  [leb x y] says that [x] may stand before [y]. *)
Fixpoint insert_row (leb : A -> A -> bool) (x : A) (l : list A) : list A :=
  match l with
  | [] => [x]
  | y :: l' => if leb x y then x :: l else y :: insert_row leb x l'
  end.

Definition sort_values (leb : A -> A -> bool) (l : list A) : list A :=
  fold_right (insert_row leb) [] l.

(** [drop_duplicates(subset=[key], keep='first')]. *)
Fixpoint drop_duplicates (key : A -> string) (l : list A) : list A :=
  match l with
  | [] => []
  | x :: t =>
      x :: filter (fun y => negb (key y =? key x)%string)
             (drop_duplicates key t)
  end.

(** Rows that an order cannot tell apart. *)
Definition tied (leb : A -> A -> bool) (c x : A) : bool :=
  leb c x && leb x c.
End Frames.

(** [Series.unique()]: distinct values in order of first appearance. *)
Definition unique (l : list string) : list string :=
  drop_duplicates (fun s => s) l.

(** Ascending order on a datetime column, NaT last. *)
Definition date_leb (a b : option Z) : bool :=
  match a, b with
  | _, None => true
  | None, Some _ => false
  | Some x, Some y => (x <=? y)%Z
  end.

(** Descending order on a datetime column, NaT last. *)
Definition date_geb (a b : option Z) : bool :=
  match a, b with
  | _, None => true
  | None, Some _ => false
  | Some x, Some y => (y <=? x)%Z
  end.

(** Ascending order on a pair of columns (loan_id, payment_date). *)
Definition by_loan_and_date {A : Type} (lid : A -> string)
    (pd : A -> option Z) (x y : A) : bool :=
  if (lid x =? lid y)%string
  then date_leb (pd x) (pd y)
  else String.leb (lid x) (lid y).

(** ** Tables *)

(** Silver loan repayments, as written by the repayments transformer:
    the three identifiers are strings, dates and the amount may be missing. *)
Record Repayment := mkRepayment {
  r_repayment_id : string;
  r_loan_id : string;
  r_customer_id : string;
  r_due_date : option Z;
  r_payment_date : option Z;
  r_amount_paid : num;
  r_status : string;
  r_days_past_due : option Z
}.

Record DimLoan := mkDimLoan {
  dl_loan_id : string;
  dl_customer_id : string;
  dl_loan_amount : num;
  dl_interest_rate : num;
  dl_term_months : num;
  dl_approval_status : option string;
  dl_updated_date : option Z
}.

(** A row of the frame [fact] inside [calculate_amortization]: the
    repayment, the columns joined from dim_loan and the three outputs. *)
Record AmortRow := mkAmortRow {
  a_rep : Repayment;
  a_loan_amount : num;
  a_interest_rate : num;
  a_term_months : num;
  a_outstanding_balance : num;
  a_principal_paid : num;
  a_interest_paid : num
}.

Definition a_loan_id (r : AmortRow) : string := r_loan_id (a_rep r).
Definition a_payment_date (r : AmortRow) : option Z := r_payment_date (a_rep r).
Definition a_amount_paid (r : AmortRow) : num := r_amount_paid (a_rep r).

Definition set_outputs (r : AmortRow) (ob pp ip : num) : AmortRow :=
  mkAmortRow (a_rep r) (a_loan_amount r) (a_interest_rate r) (a_term_months r)
             ob pp ip.

(** ** calculate_amortization *)

(** [df.merge(dim_loan[[...]], on='loan_id', how='left')] followed by the
    initialisation of the three output columns to 0.0. *)
Definition merge_loan (dim_loan : list DimLoan) (r : Repayment) : list AmortRow :=
  match filter (fun d => (dl_loan_id d =? r_loan_id r)%string) dim_loan with
  | [] => [mkAmortRow r NaN NaN NaN (Some 0) (Some 0) (Some 0)]
  | ms => map (fun d => mkAmortRow r (dl_loan_amount d) (dl_interest_rate d)
                          (dl_term_months d) (Some 0) (Some 0) (Some 0)) ms
  end.

Definition merge_left (df : list Repayment) (dim_loan : list DimLoan)
  : list AmortRow :=
  flat_map (merge_loan dim_loan) df.

(** The order of [sort_values(['loan_id', 'payment_date'])]. *)
Definition loan_date_leb (x y : AmortRow) : bool :=
  by_loan_and_date a_loan_id a_payment_date x y.

(** One pass of the inner loop [for idx in loan_data.index] for the rows
    selected by [loan_mask]; the other rows are left as they are. *)
Fixpoint amortize_rows (lid : string) (monthly_rate running_balance : num)
    (fact : list AmortRow) : list AmortRow :=
  match fact with
  | [] => []
  | r :: rest =>
      if (a_loan_id r =? lid)%string then
        let interest := nmul running_balance monthly_rate in
        let amount_paid := a_amount_paid r in
        let interest_paid := pymin amount_paid interest in
        let principal_paid := nsub amount_paid interest_paid in
        let running_balance := nsub running_balance principal_paid in
        let running_balance := pymax (Some 0) running_balance in
        set_outputs r running_balance principal_paid interest_paid
          :: amortize_rows lid monthly_rate running_balance rest
      else r :: amortize_rows lid monthly_rate running_balance rest
  end.

(** The branch taken when the loan data is missing. *)
Definition estimate_rows (lid : string) (fact : list AmortRow) : list AmortRow :=
  map (fun r => if (a_loan_id r =? lid)%string
                then set_outputs r (Some 0) (a_amount_paid r) (Some 0)
                else r) fact.

(** The body of [for loan_id in fact['loan_id'].unique()]. [None] is the
    IndexError of [.iloc[0]] on an empty selection. *)
Definition process_loan (fact : list AmortRow) (lid : string)
  : option (list AmortRow) :=
  let loan_data := filter (fun r => (a_loan_id r =? lid)%string) fact in
  match loan_data with
  | [] => None
  | first :: _ =>
      let initial_balance := a_loan_amount first in
      let annual_rate := a_interest_rate first in
      if isna initial_balance || isna annual_rate then
        Some (estimate_rows lid fact)
      else
        let monthly_rate := ndiv (ndiv annual_rate (Some 100)) (Some 12) in
        Some (amortize_rows lid monthly_rate initial_balance fact)
  end.

Definition process_loans (fact : list AmortRow) (lids : list string)
  : option (list AmortRow) :=
  fold_left (fun acc lid =>
               match acc with
               | Some f => process_loan f lid
               | None => None
               end) lids (Some fact).

Definition calculate_amortization (df : list Repayment) (dim_loan : list DimLoan)
  : option (list AmortRow) :=
  let fact := merge_left df dim_loan in
  let fact := sort_values loan_date_leb fact in
  process_loans fact (unique (map a_loan_id fact)).

(** *** The per-loan reading of the engine *)

(** The columns of [fact] that the loop only reads. *)
Definition row_inputs (r : AmortRow) : Repayment * num * num * num :=
  (a_rep r, a_loan_amount r, a_interest_rate r, a_term_months r).

(** The three computed columns, as (interest_paid, principal_paid,
    outstanding_balance). *)
Definition row_outputs (r : AmortRow) : num * num * num :=
  (a_interest_paid r, a_principal_paid r, a_outstanding_balance r).

(** [fact[fact['loan_id'] == loan_id]] *)
Definition loan_rows (lid : string) (fact : list AmortRow) : list AmortRow :=
  filter (fun r => (a_loan_id r =? lid)%string) fact.

(** The sequential fold over the payments of one loan, [min] and [max]
    being Python's builtins. *)
Fixpoint amortization_fold (monthly_rate running_balance : num)
    (payments : list num) : list (num * num * num) :=
  match payments with
  | [] => []
  | amount_paid :: rest =>
      let interest_due := nmul running_balance monthly_rate in
      let interest_paid := pymin amount_paid interest_due in
      let principal_paid := nsub amount_paid interest_paid in
      let running_balance :=
        pymax (Some 0) (nsub running_balance principal_paid) in
      (interest_paid, principal_paid, running_balance)
        :: amortization_fold monthly_rate running_balance rest
  end.

(** The same fold in the words of the specification, over finite amounts. *)
Fixpoint spec_fold (monthly_rate running_balance : Q) (payments : list Q)
  : list (Q * Q * Q) :=
  match payments with
  | [] => []
  | amount_paid :: rest =>
      let interest_due := running_balance * monthly_rate in
      let interest_paid := Qmin amount_paid interest_due in
      let principal_paid := amount_paid - interest_paid in
      let running_balance := Qmax 0 (running_balance - principal_paid) in
      (interest_paid, principal_paid, running_balance)
        :: spec_fold monthly_rate running_balance rest
  end.

Definition finite3 (t : Q * Q * Q) : num * num * num :=
  let '(a, b, c) := t in (Some a, Some b, Some c).

(** The degraded policy for a loan without loan data. *)
Definition fallback_outputs (payments : list num) : list (num * num * num) :=
  map (fun amount_paid => (Some 0, amount_paid, Some 0)) payments.

(** What the engine writes on the rows of one loan, read off those rows. *)
Definition loan_result (rows : list AmortRow) : list (num * num * num) :=
  match rows with
  | [] => []
  | first :: _ =>
      if isna (a_loan_amount first) || isna (a_interest_rate first)
      then fallback_outputs (map a_amount_paid rows)
      else amortization_fold
             (ndiv (ndiv (a_interest_rate first) (Some 100)) (Some 12))
             (a_loan_amount first) (map a_amount_paid rows)
  end.

(** The outstanding balance among the three outputs of a row. *)
Definition balance_of (o : num * num * num) : num := snd o.

(** The sort key of a repayment inside the engine. *)
Definition repayment_key (r : Repayment) : string * option Z :=
  (r_loan_id r, r_payment_date r).

(** The loan data that the join attaches to the rows of a loan when
    dim_loan holds at most one row for it. *)
Definition joined_loan_data (dim_loan : list DimLoan) (lid : string)
  : num * num :=
  match filter (fun d => (dl_loan_id d =? lid)%string) dim_loan with
  | [] => (NaN, NaN)
  | d :: _ => (dl_loan_amount d, dl_interest_rate d)
  end.

(** The outputs recorded for one repayment_id. *)
Definition outputs_of (rid : string) (out : list AmortRow)
  : list (num * num * num) :=
  map row_outputs
      (filter (fun r => (r_repayment_id (a_rep r) =? rid)%string) out).

(** *** Example data *)

Definition scenario_payment : Repayment :=
  mkRepayment "R1" "L1" "C1" (Some 1%Z) (Some 1%Z) (Some 100) "PAID" (Some 0%Z).

Definition scenario_loan : DimLoan :=
  mkDimLoan "L1" "C1" (Some 1200) (Some 12) (Some 12)
            (Some "APPROVED"%string) (Some 0%Z).

Definition same_day_100 : Repayment := scenario_payment.

Definition same_day_50 : Repayment :=
  mkRepayment "R2" "L1" "C1" (Some 1%Z) (Some 1%Z) (Some 50) "PAID" (Some 0%Z).

Definition next_day_50 : Repayment :=
  mkRepayment "R2" "L1" "C1" (Some 1%Z) (Some 2%Z) (Some 50) "PAID" (Some 1%Z).

(** ** Dimension and fact tables, and their upserts *)

Record DimCustomer := mkDimCustomer {
  dc_customer_id : string;
  dc_full_name : option string;
  dc_address : option string;
  dc_credit_score : num;
  dc_updated_date : option Z
}.

(** A row of FactLoanPerformance: the repayment columns, the three
    amortization outputs, the default flag and the processing stamp. *)
Record Fact := mkFact {
  f_rep : Repayment;
  f_principal_paid : num;
  f_interest_paid : num;
  f_outstanding_balance : num;
  f_is_defaulted : bool;
  f_processing_date : option Z
}.

Definition f_repayment_id (f : Fact) : string := r_repayment_id (f_rep f).
Definition f_loan_id (f : Fact) : string := r_loan_id (f_rep f).
Definition f_customer_id (f : Fact) : string := r_customer_id (f_rep f).
Definition f_payment_date (f : Fact) : option Z := r_payment_date (f_rep f).
Definition f_due_date (f : Fact) : option Z := r_due_date (f_rep f).
Definition f_amount_paid (f : Fact) : num := r_amount_paid (f_rep f).
Definition f_status (f : Fact) : string := r_status (f_rep f).
Definition f_days_past_due (f : Fact) : option Z := r_days_past_due (f_rep f).

(** [build_fact_loan_performance], [now] being the processing stamp. *)
Definition build_fact_loan_performance (now : Z)
    (loan_repayments : list Repayment) (dim_loan : list DimLoan)
  : option (list Fact) :=
  match calculate_amortization loan_repayments dim_loan with
  | None => None
  | Some fact =>
      Some (map (fun a =>
                   mkFact (a_rep a) (a_principal_paid a) (a_interest_paid a)
                          (a_outstanding_balance a)
                          (r_status (a_rep a) =? "MISSED")%string
                          (Some now)) fact)
  end.

(** What the glob and the parquet reads of an upsert find under the output
    path: an exception, or the rows of each file found. *)
Inductive persisted (A : Type) : Type :=
| ReadError : persisted A
| Files : list (list A) -> persisted A.

Arguments ReadError {A}.
Arguments Files {A} _.

Section Upsert.
Context {A : Type} (key : A -> string) (recency : A -> option Z).

(** The order of [sort_values(recency, ascending=False)]. *)
Definition recency_geb (x y : A) : bool :=
  date_geb (recency x) (recency y).

(** The three statements shared by the upserts once files were found. *)
Definition upsert_merge (existing_data new_data : list A) : list A :=
  let combined := existing_data ++ new_data in
  let combined := sort_values recency_geb combined in
  drop_duplicates key combined.

Definition apply_upsert (store : persisted A) (new_data : list A) : list A :=
  match store with
  | ReadError => new_data
  | Files [] => new_data
  | Files files => upsert_merge (List.concat files) new_data
  end.

(** The upsert in the words of the specification: existing rows (empty
    if none), concatenated with the batch, sorted by recency descending,
    duplicates on the key dropped keeping the first. *)
Definition existing_rows (store : persisted A) : list A :=
  match store with
  | ReadError => []
  | Files files => List.concat files
  end.

Definition upsert_spec (store : persisted A) (new_data : list A) : list A :=
  drop_duplicates key
    (sort_values recency_geb (existing_rows store ++ new_data)).
End Upsert.

Definition apply_dim_customer_upsert
  : persisted DimCustomer -> list DimCustomer -> list DimCustomer :=
  apply_upsert dc_customer_id dc_updated_date.

Definition apply_dim_loan_upsert
  : persisted DimLoan -> list DimLoan -> list DimLoan :=
  apply_upsert dl_loan_id dl_updated_date.

Definition fact_loan_date_leb (x y : Fact) : bool :=
  by_loan_and_date f_loan_id f_payment_date x y.

Definition apply_fact_loan_performance_upsert (store : persisted Fact)
    (new_facts : list Fact) : list Fact :=
  match store with
  | ReadError => new_facts
  | Files [] => new_facts
  | Files files =>
      let final_facts :=
        upsert_merge f_repayment_id f_payment_date (List.concat files) new_facts in
      sort_values fact_loan_date_leb final_facts
  end.

(** At least one persisted file was found and read. *)
Definition has_files {A : Type} (store : persisted A) : Prop :=
  match store with
  | Files (_ :: _) => True
  | _ => False
  end.

(** [result] holds one row per key of [combined], a most recent one. *)
Definition latest_per_key {A : Type} (key : A -> string)
    (recency : A -> option Z) (combined result : list A) : Prop :=
  NoDup (map key result) /\
  (forall k, In k (map key result) <-> In k (map key combined)) /\
  forall x, In x result ->
    In x combined /\
    forall y, In y combined -> key y = key x ->
      recency_geb recency x y = true.

(** *** Example rows *)

Definition loan_L1_first : DimLoan :=
  mkDimLoan "L1" "C1" (Some 1000) (Some 10) (Some 12)
            (Some "APPROVED"%string) (Some 5%Z).

Definition loan_L1_later : DimLoan :=
  mkDimLoan "L1" "C1" (Some 2000) (Some 10) (Some 24)
            (Some "APPROVED"%string) (Some 9%Z).

Definition fact_of (r : Repayment) : Fact :=
  mkFact r (Some 0) (Some 0) (Some 0) false (Some 0%Z).

Definition fact_R1_day1 : Fact :=
  fact_of (mkRepayment "R1" "L1" "C1" (Some 1%Z) (Some 1%Z) (Some 100)
                       "PAID" (Some 0%Z)).

Definition fact_R1_day2 : Fact :=
  fact_of (mkRepayment "R1" "L1" "C1" (Some 1%Z) (Some 2%Z) (Some 100)
                       "LATE" (Some 1%Z)).

Definition fact_R2_day2 : Fact :=
  fact_of (mkRepayment "R2" "L1" "C1" (Some 2%Z) (Some 2%Z) (Some 100)
                       "PAID" (Some 0%Z)).

(** ** Region of a customer address *)

(** [str.split(sep)] for a one-character separator. *)
Fixpoint split (sep : ascii) (s : string) : list string :=
  match s with
  | EmptyString => [EmptyString]
  | String c s' =>
      if (c =? sep)%char then EmptyString :: split sep s'
      else match split sep s' with
           | [] => [String c EmptyString]
           | tok :: toks => String c tok :: toks
           end
  end.

(** The ASCII characters that [str.strip()] removes. *)
Definition is_space (c : ascii) : bool :=
  let n := nat_of_ascii c in
  ((9 <=? n) && (n <=? 13) || (28 <=? n) && (n <=? 32))%nat.

Fixpoint lstrip (s : string) : string :=
  match s with
  | EmptyString => EmptyString
  | String c s' => if is_space c then lstrip s' else s
  end.

Fixpoint rstrip (s : string) : string :=
  match s with
  | EmptyString => EmptyString
  | String c s' =>
      match rstrip s' with
      | EmptyString => if is_space c then EmptyString
                       else String c EmptyString
      | t => String c t
      end
  end.

Definition strip (s : string) : string := lstrip (rstrip s).

(** The lambda applied to the address column in
    [calculate_regional_delinquency_kpis] and in
    [calculate_customer_drilldown_kpis]:
    [x.split(',')[-2].strip() if pd.notna(x) and len(x.split(',')) >= 2
     else 'Unknown']. *)
Definition extract_region (address : option string) : string :=
  match address with
  | Some x =>
      let parts := split "," x in
      if (2 <=? List.length parts)%nat
      then strip (nth (List.length parts - 2) parts EmptyString)
      else "Unknown"
  | None => "Unknown"
  end.

(** ** Portfolio KPIs *)

(** A Python computation that may raise ZeroDivisionError. *)
Inductive result (A : Type) : Type :=
| Ok : A -> result A
| ZeroDivisionError : result A.

Arguments Ok {A} _.
Arguments ZeroDivisionError {A}.

Definition bind {A B : Type} (m : result A) (k : A -> result B) : result B :=
  match m with
  | Ok a => k a
  | ZeroDivisionError => ZeroDivisionError
  end.

Notation "x <- m ;; k" := (bind m (fun x => k))
  (at level 61, m at next level, right associativity).

(** [a / b] on Python ints. *)
Definition int_div (a b : Z) : result Q :=
  if (b =? 0)%Z then ZeroDivisionError else Ok (inject_Z a / inject_Z b).

Definition len {A : Type} (l : list A) : Z := Z.of_nat (List.length l).

(** Aggregations of pandas, all of which skip missing cells. *)
Definition sum_valid (l : list num) : Q :=
  fold_left (fun acc x => match x with
                          | Some q => acc + q
                          | None => acc
                          end) l 0.

Definition sum_skipna (l : list num) : num := Some (sum_valid l).

Definition valid {A : Type} (l : list (option A)) : list A :=
  flat_map (fun x => match x with Some a => [a] | None => [] end) l.

Definition mean_skipna (l : list num) : num :=
  match valid l with
  | [] => NaN
  | v => ndiv (Some (fold_left Qplus v 0)) (Some (inject_Z (len v)))
  end.

Definition first_valid {A : Type} (l : list (option A)) : option A :=
  hd_error (valid l).

Definition last_valid {A : Type} (l : list (option A)) : option A :=
  hd_error (rev (valid l)).

Definition min_skipna (l : list (option Z)) : option Z :=
  match valid l with
  | [] => None
  | x :: t => Some (fold_left Z.min t x)
  end.

Definition max_skipna (l : list (option Z)) : option Z :=
  match valid l with
  | [] => None
  | x :: t => Some (fold_left Z.max t x)
  end.

(** [Series.clip(lower=0)] on a float column. *)
Definition clip_lower0 (x : num) : num :=
  match x with
  | Some q => Some (Qmax 0 q)
  | None => NaN
  end.

(** [left.merge(right, on=key, how='left')] *)
Definition left_join {L R J : Type} (lkey : L -> option string)
    (rkey : R -> string) (mk : L -> option R -> J)
    (left : list L) (right : list R) : list J :=
  flat_map (fun l =>
              match filter (fun r => match lkey l with
                                     | Some k => (rkey r =? k)%string
                                     | None => false
                                     end) right with
              | [] => [mk l None]
              | ms => map (fun r => mk l (Some r)) ms
              end) left.

(** [groupby(key)]: the groups in ascending key order, rows in frame order. *)
Definition groupby {A : Type} (key : A -> string) (l : list A)
  : list (string * list A) :=
  map (fun k => (k, filter (fun x => (key x =? k)%string) l))
      (sort_values String.leb (unique (map key l))).

Definition option_eqb (x : option string) (s : string) : bool :=
  match x with
  | Some v => (v =? s)%string
  | None => false
  end.

Record FactWithLoan := mkFactWithLoan {
  fw_fact : Fact;
  fw_loan_amount : num;
  fw_interest_rate : num;
  fw_term_months : num;
  fw_approval_status : option string
}.

(** A row of [loan_summary], then of [active_loans] with its three added
    columns. *)
Record LoanSummary := mkLoanSummary {
  ls_loan_id : string;
  ls_amount_paid : num;
  ls_status : option string;
  ls_due_date : option Z;
  ls_days_past_due : option Z;
  ls_loan_amount : num;
  ls_interest_rate : num;
  ls_term_months : num;
  ls_approval_status : option string;
  ls_customer_id : option string
}.

Record ActiveLoan := mkActiveLoan {
  al_summary : LoanSummary;
  al_outstanding_balance : num;
  al_elapsed_months : Z;
  al_interest_earned : num
}.



Section Portfolio.
(** The calendar fields [.year] and [.month] of a datetime. *)
Variables year_of month_of : Z -> Z.

Definition fact_with_loan (fact_df : list Fact) (dim_loan : list DimLoan)
  : list FactWithLoan :=
  left_join (fun f => Some (f_loan_id f)) dl_loan_id
    (fun f d =>
       match d with
       | Some d => mkFactWithLoan f (dl_loan_amount d) (dl_interest_rate d)
                     (dl_term_months d) (dl_approval_status d)
       | None => mkFactWithLoan f NaN NaN NaN None
       end) fact_df dim_loan.

Definition loan_summary (fact_df : list Fact) (dim_loan : list DimLoan)
  : list LoanSummary :=
  map (fun g =>
         let rows := snd g in
         mkLoanSummary (fst g)
           (sum_skipna (map (fun r => f_amount_paid (fw_fact r)) rows))
           (last_valid (map (fun r => Some (f_status (fw_fact r))) rows))
           (min_skipna (map (fun r => f_due_date (fw_fact r)) rows))
           (max_skipna (map (fun r => f_days_past_due (fw_fact r)) rows))
           (first_valid (map fw_loan_amount rows))
           (first_valid (map fw_interest_rate rows))
           (first_valid (map fw_term_months rows))
           (first_valid (map fw_approval_status rows))
           (first_valid (map (fun r => Some (f_customer_id (fw_fact r)))
                             rows)))
      (groupby (fun r => f_loan_id (fw_fact r))
               (fact_with_loan fact_df dim_loan)).

Definition elapsed_months (today : Z) (due_date : option Z) : Z :=
  Z.max 0
    match due_date with
    | Some x => (year_of today - year_of x) * 12
                + (month_of today - month_of x)
    | None => 0
    end%Z.

Definition active_loans (today : Z) (fact_df : list Fact)
    (dim_loan : list DimLoan) : list ActiveLoan :=
  map (fun l =>
         let outstanding_balance :=
           clip_lower0 (nsub (ls_loan_amount l) (ls_amount_paid l)) in
         let months := elapsed_months today (ls_due_date l) in
         let interest_earned :=
           nmul (nmul (ls_loan_amount l)
                      (ndiv (ls_interest_rate l) (Some 100)))
                (ndiv (Some (inject_Z months)) (Some 12)) in
         mkActiveLoan l outstanding_balance months interest_earned)
      (filter (fun l => option_eqb (ls_approval_status l) "APPROVED")
              (loan_summary fact_df dim_loan)).

(** [fact_df.sort_values('payment_date').groupby('loan_id').last()],
    reduced to the days_past_due column. *)
Definition latest_repayments (fact_df : list Fact)
  : list (string * option Z) :=
  map (fun g => (fst g, last_valid (map f_days_past_due (snd g))))
      (groupby f_loan_id
         (sort_values (fun x y => date_leb (f_payment_date x)
                                           (f_payment_date y)) fact_df)).

Definition in_1_90 (d : option Z) : bool :=
  match d with
  | Some n => (1 <=? n)%Z && (n <=? 90)%Z
  | None => false
  end.

Definition over_90 (d : option Z) : bool :=
  match d with
  | Some n => (90 <? n)%Z
  | None => false
  end.





(** [max(0, 100 - (avg_days_past_due / 90) * 100)] *)
Definition transaction_score (today : Z) (fact_df : list Fact)
    (dim_loan : list DimLoan) : num :=
  let avg_days_past_due :=
    mean_skipna
      (map (fun l => match ls_days_past_due (al_summary l) with
                     | Some d => Some (inject_Z d)
                     | None => Some 0
                     end) (active_loans today fact_df dim_loan)) in
  pymax (Some 0)
        (nsub (Some 100)
              (nmul (ndiv avg_days_past_due (Some 90)) (Some 100))).

End Portfolio.

(** ** Building the dimensions *)

(** [drop_duplicates(subset=[key], keep='last')]: the last row of each key
    stays, at its place. *)
Definition drop_duplicates_last {A : Type} (key : A -> string) (l : list A)
  : list A :=
  rev (drop_duplicates key (rev l)).

(** Silver loan applications and credit bureau rows, reduced to the
    columns that the gold build selects and the tables above carry. *)
Record LoanApplication := mkLoanApplication {
  la_application_id : string;
  la_customer_id : string;
  la_full_name : option string;
  la_address : option string;
  la_loan_amount : num;
  la_term_months : num;
  la_interest_rate : num;
  la_approval_status : option string
}.

Record CreditBureau := mkCreditBureau {
  cb_customer_id : string;
  cb_credit_score : num
}.

(** A row of the frame that [build_dim_loan] returns: the DimLoan columns
    read downstream, the application_id and the match flag. *)
Record DimLoanBuilt := mkDimLoanBuilt {
  dlb_row : DimLoan;
  dlb_application_id : option string;
  dlb_has_approved_application : bool
}.

(** [build_dim_customer]; [now] is the stamp of the build. *)
Definition build_dim_customer (now : Z)
    (loan_applications : list LoanApplication)
    (credit_bureau : list CreditBureau) : list DimCustomer :=
  let customer_demo := drop_duplicates_last la_customer_id loan_applications in
  let credit_profile := drop_duplicates_last cb_customer_id credit_bureau in
  left_join (fun a => Some (la_customer_id a)) cb_customer_id
    (fun a c =>
       mkDimCustomer (la_customer_id a) (la_full_name a) (la_address a)
         match c with
         | Some c => cb_credit_score c
         | None => NaN
         end
         (Some now))
    customer_demo credit_profile.

(** [build_dim_loan] *)
Definition build_dim_loan (now : Z) (loan_repayments : list Repayment)
    (loan_applications : list LoanApplication) : list DimLoanBuilt :=
  let active_loans := drop_duplicates_last r_loan_id loan_repayments in
  let approved_apps :=
    filter (fun a => option_eqb (la_approval_status a) "APPROVED")
           loan_applications in
  let loan_chars := drop_duplicates_last la_customer_id approved_apps in
  left_join (fun r => Some (r_customer_id r)) la_customer_id
    (fun r a =>
       let application_id := match a with
                             | Some a => Some (la_application_id a)
                             | None => None
                             end in
       mkDimLoanBuilt
         match a with
         | Some a => mkDimLoan (r_loan_id r) (r_customer_id r)
                       (la_loan_amount a) (la_interest_rate a)
                       (la_term_months a) (la_approval_status a) (Some now)
         | None => mkDimLoan (r_loan_id r) (r_customer_id r)
                     NaN NaN NaN None (Some now)
         end
         application_id (negb (isna application_id)))
    active_loans loan_chars.

(** The match that a left join finds for a key in a right frame. *)
Definition lookup_key {R : Type} (rkey : R -> string) (k : string)
    (right : list R) : option R :=
  hd_error (filter (fun r => (rkey r =? k)%string) right).

(** ** The run, up to the fact table *)

(** [get_latest_transformed_data]: the rows of all files of a silver
    dataset; [None] is the FileNotFoundError raised when there is none. *)
Definition get_latest_transformed_data {A : Type} (files : list (list A))
  : option (list A) :=
  match files with
  | [] => None
  | _ => Some (List.concat files)
  end.

Record GoldTables := mkGoldTables {
  gt_dim_customer : list DimCustomer;
  gt_dim_loan : list DimLoan;
  gt_fact_loan_performance : list Fact
}.

(** Steps 1 to 3 of [main]: load the three silver datasets, build and
    upsert the two dimensions, build and upsert the fact table.  [None] is a
    raised exception. *)
Definition main_tables (now : Z)
    (applications_silver : list (list LoanApplication))
    (repayments_silver : list (list Repayment))
    (bureau_silver : list (list CreditBureau))
    (customer_store : persisted DimCustomer)
    (loan_store : persisted DimLoan)
    (fact_store : persisted Fact) : option GoldTables :=
  match get_latest_transformed_data applications_silver with
  | None => None
  | Some loan_applications =>
  match get_latest_transformed_data repayments_silver with
  | None => None
  | Some loan_repayments =>
  match get_latest_transformed_data bureau_silver with
  | None => None
  | Some credit_bureau =>
      let dim_customer :=
        build_dim_customer now loan_applications credit_bureau in
      let dim_customer := apply_dim_customer_upsert customer_store dim_customer in
      let dim_loan :=
        map dlb_row (build_dim_loan now loan_repayments loan_applications) in
      let dim_loan := apply_dim_loan_upsert loan_store dim_loan in
      match build_fact_loan_performance now loan_repayments dim_loan with
      | None => None
      | Some fact_loan_performance =>
          Some (mkGoldTables dim_customer dim_loan
                  (apply_fact_loan_performance_upsert fact_store
                     fact_loan_performance))
      end
  end end end.

(** The last row of a frame that carries a key. *)
Definition last_with_key {A : Type} (key : A -> string) (k : string)
    (l : list A) : option A :=
  hd_error (rev (filter (fun x => (key x =? k)%string) l)).

Definition is_approved (a : LoanApplication) : bool :=
  option_eqb (la_approval_status a) "APPROVED".

(** The row that [build_dim_loan] makes of a loan and of the application
    matched to its customer. *)
Definition built_loan_row (now : Z) (r : Repayment)
    (a : option LoanApplication) : DimLoanBuilt :=
  match a with
  | Some a =>
      mkDimLoanBuilt
        (mkDimLoan (r_loan_id r) (r_customer_id r) (la_loan_amount a)
                   (la_interest_rate a) (la_term_months a)
                   (la_approval_status a) (Some now))
        (Some (la_application_id a)) true
  | None =>
      mkDimLoanBuilt
        (mkDimLoan (r_loan_id r) (r_customer_id r) NaN NaN NaN None (Some now))
        None false
  end.

(** The row that [build_dim_customer] makes of an application row and of
    the credit bureau row matched to its customer. *)
Definition built_customer_row (now : Z) (a : LoanApplication)
    (c : option CreditBureau) : DimCustomer :=
  mkDimCustomer (la_customer_id a) (la_full_name a) (la_address a)
    match c with
    | Some c => cb_credit_score c
    | None => NaN
    end
    (Some now).

(** The loan characteristics of a built DimLoan row. *)
Definition loan_characteristics (b : DimLoanBuilt)
  : num * num * num * option string * option string * bool :=
  (dl_loan_amount (dlb_row b), dl_interest_rate (dlb_row b),
   dl_term_months (dlb_row b), dl_approval_status (dlb_row b),
   dlb_application_id b, dlb_has_approved_application b).

(** *** Example silver rows *)

Definition application_C1_rejected : LoanApplication :=
  mkLoanApplication "A1" "C1" (Some "Ann Lee"%string)
    (Some "1 Main St, Troy, NY 12180"%string) (Some 500) (Some 6) (Some 9)
    (Some "REJECTED"%string).

Definition application_C1_approved : LoanApplication :=
  mkLoanApplication "A2" "C1" (Some "Ann Lee"%string)
    (Some "1 Main St, Troy, NY 12180"%string) (Some 1200) (Some 12) (Some 12)
    (Some "APPROVED"%string).

Definition repayment_L2_other_customer : Repayment :=
  mkRepayment "R9" "L2" "C2" (Some 1%Z) (Some 3%Z) (Some 40) "PAID" (Some 2%Z).

(** The order of [sort_values(['loan_id', 'payment_date'])] on the
    repayment columns alone. *)
Definition repayment_leb (x y : Repayment) : bool :=
  by_loan_and_date r_loan_id r_payment_date x y.

(** A float cell that is missing or not negative. *)
Definition nonneg_cell (x : num) : Prop := forall q, x = Some q -> 0 <= q.

(** ** Regional and customer drilldown KPIs *)

(** A row of [fact_with_details]: a fact row with the columns joined from
    dim_loan and from dim_customer.  The regional KPIs join the address
    only, the customer drilldown also the name and the credit score; the
    rows and their order are the same. *)
Record FactDetail := mkFactDetail {
  fd_fact : Fact;
  fd_loan_amount : num;
  fd_approval_status : option string;
  fd_full_name : option string;
  fd_address : option string;
  fd_credit_score : num
}.

Definition fd_loan_id (d : FactDetail) : string := f_loan_id (fd_fact d).
Definition fd_customer_id (d : FactDetail) : string :=
  f_customer_id (fd_fact d).

(** The column [region]. *)
Definition fd_region (d : FactDetail) : string :=
  extract_region (fd_address d).

Definition fact_with_details (fact_df : list Fact)
    (dim_customer : list DimCustomer) (dim_loan : list DimLoan)
  : list FactDetail :=
  left_join (fun p => Some (f_customer_id (fst p))) dc_customer_id
    (fun p c =>
       match c with
       | Some c => mkFactDetail (fst p) (fst (snd p)) (snd (snd p))
                     (dc_full_name c) (dc_address c) (dc_credit_score c)
       | None => mkFactDetail (fst p) (fst (snd p)) (snd (snd p))
                   None None NaN
       end)
    (left_join (fun f => Some (f_loan_id f)) dl_loan_id
       (fun f d => (f, match d with
                       | Some d => (dl_loan_amount d, dl_approval_status d)
                       | None => (NaN, None)
                       end))
       fact_df dim_loan)
    dim_customer.

(** [fact_with_details[fact_with_details['approval_status'] == 'APPROVED']] *)
Definition active_fact (fact_df : list Fact)
    (dim_customer : list DimCustomer) (dim_loan : list DimLoan)
  : list FactDetail :=
  filter (fun d => option_eqb (fd_approval_status d) "APPROVED")
         (fact_with_details fact_df dim_customer dim_loan).

(** A row of [sort_values('payment_date').groupby('loan_id').last()],
    reduced to the columns read afterwards. *)
Record LatestRepayment := mkLatestRepayment {
  lr_loan_id : string;
  lr_region : string;
  lr_days_past_due : option Z;
  lr_status : option string
}.

(** The last cell of each column of each group; the region column holds
    no missing cell and a group is never empty. *)
Definition latest_per_loan (rows : list FactDetail) : list LatestRepayment :=
  map (fun g =>
         mkLatestRepayment (fst g)
           (last (map fd_region (snd g)) EmptyString)
           (last_valid (map (fun d => f_days_past_due (fd_fact d)) (snd g)))
           (last_valid (map (fun d => Some (f_status (fd_fact d))) (snd g))))
      (groupby fd_loan_id
         (sort_values (fun x y => date_leb (f_payment_date (fd_fact x))
                                           (f_payment_date (fd_fact y)))
                      rows)).

Record RegionalKpi := mkRegionalKpi {
  rk_region : string;
  rk_total_loans : Z;
  rk_early_delinquent_loans : Z;
  rk_early_delinquency_rate_pct : num;
  rk_npl_loans : Z;
  rk_npl_rate_pct : num;
  rk_defaulted_loans : Z;
  rk_default_rate_pct : num;
  rk_total_outstanding_balance : num
}.

(** [(n / total * 100) if total > 0 else 0] on Python ints. *)
Definition int_rate_pct (n total : Z) : result num :=
  if (0 <? total)%Z
  then q <- int_div n total ;; Ok (Some (q * 100))
  else Ok (Some 0).

(** The outstanding balance of a region, over all rows of its loans. *)
Definition region_outstanding (active_fact : list FactDetail)
    (region : string) : num :=
  sum_skipna
    (map (fun g =>
            clip_lower0
              (nsub (first_valid (map fd_loan_amount (snd g)))
                    (sum_skipna
                       (map (fun d => f_amount_paid (fd_fact d)) (snd g)))))
         (groupby fd_loan_id
            (filter (fun d => (fd_region d =? region)%string) active_fact))).

(** The body of [for region in latest_repayments['region'].unique()]. *)
Definition regional_stats (active_fact : list FactDetail)
    (latest_repayments : list LatestRepayment) (region : string)
  : result RegionalKpi :=
  let region_loans :=
    filter (fun l => (lr_region l =? region)%string) latest_repayments in
  let total_loans := len region_loans in
  let num_early_delinquent :=
    len (filter (fun l => in_1_90 (lr_days_past_due l)) region_loans) in
  early_delinquency_rate <- int_rate_pct num_early_delinquent total_loans ;;
  let num_npl :=
    len (filter (fun l => over_90 (lr_days_past_due l)) region_loans) in
  npl_rate <- int_rate_pct num_npl total_loans ;;
  let num_defaulted :=
    len (filter (fun l => option_eqb (lr_status l) "MISSED") region_loans) in
  default_rate <- int_rate_pct num_defaulted total_loans ;;
  Ok (mkRegionalKpi region total_loans num_early_delinquent
        early_delinquency_rate num_npl npl_rate num_defaulted default_rate
        (region_outstanding active_fact region)).

Fixpoint map_result {A B : Type} (f : A -> result B) (l : list A)
  : result (list B) :=
  match l with
  | [] => Ok []
  | x :: t => y <- f x ;; ys <- map_result f t ;; Ok (y :: ys)
  end.

Definition calculate_regional_delinquency_kpis (fact_df : list Fact)
    (dim_customer : list DimCustomer) (dim_loan : list DimLoan)
  : result (list RegionalKpi) :=
  let active_fact := active_fact fact_df dim_customer dim_loan in
  let latest_repayments := latest_per_loan active_fact in
  map_result (regional_stats active_fact latest_repayments)
             (unique (map lr_region latest_repayments)).

(** The sum of a column of ints. *)
Definition sumZ (l : list Z) : Z := fold_right Z.add 0%Z l.

(** What every row of the regional KPI table satisfies. *)
Definition regional_row_ok (k : RegionalKpi) : Prop :=
  (1 <= rk_total_loans k)%Z /\
  (0 <= rk_early_delinquent_loans k)%Z /\
  (0 <= rk_npl_loans k)%Z /\
  (rk_early_delinquent_loans k + rk_npl_loans k <= rk_total_loans k)%Z /\
  (0 <= rk_defaulted_loans k <= rk_total_loans k)%Z /\
  rk_early_delinquency_rate_pct k =
    Some (inject_Z (rk_early_delinquent_loans k)
          / inject_Z (rk_total_loans k) * 100) /\
  rk_npl_rate_pct k =
    Some (inject_Z (rk_npl_loans k) / inject_Z (rk_total_loans k) * 100) /\
  rk_default_rate_pct k =
    Some (inject_Z (rk_defaulted_loans k)
          / inject_Z (rk_total_loans k) * 100) /\
  exists t, rk_total_outstanding_balance k = Some t /\ 0 <= t.

(** *** Customer drilldown *)

Record CustomerDrilldown := mkCustomerDrilldown {
  cd_customer_id : string;
  cd_customer_name : option string;
  cd_region : string;
  cd_credit_score : num;
  cd_total_loans : Z;
  cd_total_loan_amount : num;
  cd_outstanding_balance : num;
  cd_max_days_past_due : Z;
  cd_is_delinquent : bool;
  cd_is_npl : bool;
  cd_is_defaulted : bool;
  cd_repayment_history_score : num;
  cd_customer_risk_score : num
}.

(** [x > bound] on a possibly missing number of days. *)
Definition days_over (bound : Z) (d : option Z) : bool :=
  match d with
  | Some n => (bound <? n)%Z
  | None => false
  end.

(** The transaction score of one customer:
    [max(0, 100 - (max_days_past_due / 90) * 100) if notna else 100]. *)
Definition customer_transaction_score (max_days_past_due : option Z) : num :=
  match max_days_past_due with
  | Some m =>
      pymax (Some 0)
            (nsub (Some 100)
                  (nmul (ndiv (Some (inject_Z m)) (Some 90)) (Some 100)))
  | None => Some 100
  end.

(** The weighted score of one customer. *)
Definition weighted_risk_score (credit_score transaction_score
                                repayment_history_score : num) : num :=
  let credit_score_norm :=
    if negb (isna credit_score)
    then nmul (ndiv (nsub credit_score (Some 300)) (Some (850 - 300)))
              (Some 100)
    else Some 0 in
  let credit_score_norm :=
    pymax (Some 0) (pymin (Some 100) credit_score_norm) in
  if negb (isna credit_score)
  then nadd (nadd (nmul (Some (5 # 10)) credit_score_norm)
                  (nmul (Some (3 # 10)) transaction_score))
            (nmul (Some (2 # 10)) repayment_history_score)
  else Some 0.

(** The body of [for customer_id in active_fact['customer_id'].unique()];
    [None] is the IndexError of [.iloc[0]] on an empty selection. *)
Definition customer_stats (active_fact : list FactDetail)
    (customer_id : string) : option CustomerDrilldown :=
  let customer_data :=
    filter (fun d => (fd_customer_id d =? customer_id)%string) active_fact in
  match customer_data with
  | [] => None
  | first :: _ =>
      let customer_name := fd_full_name first in
      let customer_region := fd_region first in
      let customer_credit_score := fd_credit_score first in
      let latest_repayments := latest_per_loan customer_data in
      let total_loans := len latest_repayments in
      let by_loan := groupby fd_loan_id customer_data in
      let total_loan_amount :=
        sum_skipna
          (map (fun g => first_valid (map fd_loan_amount (snd g))) by_loan) in
      let total_amount_paid :=
        sum_skipna
          (map (fun g =>
                  sum_skipna
                    (map (fun d => f_amount_paid (fd_fact d)) (snd g)))
               by_loan) in
      let outstanding_balance :=
        pymax (Some 0) (nsub total_loan_amount total_amount_paid) in
      let max_days_past_due :=
        max_skipna (map lr_days_past_due latest_repayments) in
      let is_delinquent := days_over 0 max_days_past_due in
      let is_npl := days_over 90 max_days_past_due in
      let is_defaulted :=
        existsb (fun l => option_eqb (lr_status l) "MISSED")
                latest_repayments in
      let repayment_history_score :=
        if (0 <? len customer_data)%Z
        then nmul (ndiv (Some (inject_Z
                                 (len (filter
                                         (fun d => (f_status (fd_fact d)
                                                    =? "PAID")%string)
                                         customer_data))))
                        (Some (inject_Z (len customer_data))))
                  (Some 100)
        else Some 0 in
      let transaction_score :=
        customer_transaction_score max_days_past_due in
      let customer_risk_score :=
        weighted_risk_score customer_credit_score transaction_score
          repayment_history_score in
      Some (mkCustomerDrilldown customer_id customer_name customer_region
              customer_credit_score total_loans total_loan_amount
              outstanding_balance
              match max_days_past_due with Some m => m | None => 0%Z end
              is_delinquent is_npl is_defaulted repayment_history_score
              customer_risk_score)
  end.

Fixpoint map_option {A B : Type} (f : A -> option B) (l : list A)
  : option (list B) :=
  match l with
  | [] => Some []
  | x :: t =>
      match f x, map_option f t with
      | Some y, Some ys => Some (y :: ys)
      | _, _ => None
      end
  end.

Definition calculate_customer_drilldown_kpis (fact_df : list Fact)
    (dim_customer : list DimCustomer) (dim_loan : list DimLoan)
  : option (list CustomerDrilldown) :=
  let active_fact := active_fact fact_df dim_customer dim_loan in
  map_option (customer_stats active_fact)
             (unique (map fd_customer_id active_fact)).

(** What every row of the customer drilldown satisfies. *)
Definition drilldown_row_ok (k : CustomerDrilldown) : Prop :=
  (1 <= cd_total_loans k)%Z /\
  (exists b, cd_outstanding_balance k = Some b /\ 0 <= b) /\
  (cd_is_npl k = true -> cd_is_delinquent k = true) /\
  (cd_is_delinquent k = true <-> (0 < cd_max_days_past_due k)%Z) /\
  (cd_is_npl k = true <-> (90 < cd_max_days_past_due k)%Z) /\
  (exists h, cd_repayment_history_score k = Some h /\ 0 <= h /\ h <= 100) /\
  (cd_credit_score k = NaN -> cd_customer_risk_score k = Some 0) /\
  (cd_credit_score k <> NaN ->
   exists s, cd_customer_risk_score k = Some s /\ 0 <= s /\
             ((0 <= cd_max_days_past_due k)%Z -> s <= 100)).

(** *** Fields of an address *)

(** [c in s] for a character. *)
Fixpoint contains (c : ascii) (s : string) : bool :=
  match s with
  | EmptyString => false
  | String c' s' => (c' =? c)%char || contains c s'
  end.

(** An address field: a string without a comma. *)
Definition field (s : string) : Prop := contains "," s = false.

(** ** The repayments transformer (bronze to silver) *)

(** A bronze repayment row after the conversions of steps 1 to 4 of
    [transform_loan_repayments]: the identifiers as stripped strings, the
    dates as pandas timestamps (nanoseconds, NaT where the text does not
    parse), the amount as a float (NaN where it does not parse), the status
    upper-cased and stripped. *)
Record ParsedRepayment := mkParsedRepayment {
  pr_repayment_id : string;
  pr_loan_id : string;
  pr_customer_id : string;
  pr_due_date : option Z;
  pr_payment_date : option Z;
  pr_amount_paid : num;
  pr_status : string
}.

(** The dict of [df['status'].map({...})]. *)
Definition status_map : list (string * string) :=
  [("PAID", "PAID"); ("COMPLETE", "PAID"); ("COMPLETED", "PAID");
   ("LATE", "LATE"); ("LATE PAYMENT", "LATE");
   ("MISSED", "MISSED"); ("MISS", "MISSED")]%string.

(** [df['status'].map(status_map).fillna(df['status'])] on one cell. *)
Definition standardize_status (status : string) : string :=
  match find (fun kv => (fst kv =? status)%string) status_map with
  | Some kv => snd kv
  | None => status
  end.

Definition ns_per_day : Z := 86400 * 1000000000.

(** [(payment_date - due_date).dt.days]: the whole days of the
    difference, rounded down; missing when either date is. *)
Definition days_between (payment_date due_date : option Z) : option Z :=
  match payment_date, due_date with
  | Some p, Some d => Some ((p - d) / ns_per_day)%Z
  | _, _ => None
  end.

Definition classify_delinquency (days : option Z) : string :=
  match days with
  | None => "UNKNOWN"
  | Some days =>
      if (days <=? 0)%Z then "CURRENT"
      else if (days <=? 30)%Z then "1-30_DAYS"
      else if (days <=? 60)%Z then "31-60_DAYS"
      else if (days <=? 90)%Z then "61-90_DAYS"
      else "90+_DAYS"
  end.

(** A silver row: the columns that the gold build reads, and the bucket. *)
Record SilverRepayment := mkSilverRepayment {
  sr_rep : Repayment;
  sr_delinquency_bucket : string
}.

Definition sr_repayment_id (s : SilverRepayment) : string :=
  r_repayment_id (sr_rep s).
Definition sr_loan_id (s : SilverRepayment) : string := r_loan_id (sr_rep s).
Definition sr_payment_date (s : SilverRepayment) : option Z :=
  r_payment_date (sr_rep s).

(** Step 4 on one row. *)
Definition with_standard_status (r : ParsedRepayment) : ParsedRepayment :=
  mkParsedRepayment (pr_repayment_id r) (pr_loan_id r) (pr_customer_id r)
                    (pr_due_date r) (pr_payment_date r) (pr_amount_paid r)
                    (standardize_status (pr_status r)).

(** [calculate_delinquency] on one row: the columns days_past_due and
    delinquency_bucket. *)
Definition calculate_delinquency (r : ParsedRepayment) : SilverRepayment :=
  let days_past_due := days_between (pr_payment_date r) (pr_due_date r) in
  mkSilverRepayment
    (mkRepayment (pr_repayment_id r) (pr_loan_id r) (pr_customer_id r)
                 (pr_due_date r) (pr_payment_date r) (pr_amount_paid r)
                 (pr_status r) days_past_due)
    (classify_delinquency days_past_due).

(** The order of [sort_values(['loan_id', 'payment_date'])] on silver
    rows. *)
Definition silver_leb (x y : SilverRepayment) : bool :=
  by_loan_and_date sr_loan_id sr_payment_date x y.

(** [transform_loan_repayments] from step 4 on: the new columns, the sort
    of step 8 and the [drop_duplicates(subset=['repayment_id'],
    keep='last')] of step 9. *)
Definition transform_loan_repayments (df : list ParsedRepayment)
  : list SilverRepayment :=
  let df := map with_standard_status df in
  let df := map calculate_delinquency df in
  let df := sort_values silver_leb df in
  drop_duplicates_last sr_repayment_id df.

(** The repayment columns of a silver file, as the gold build reads
    them. *)
Definition silver_repayments (df : list ParsedRepayment) : list Repayment :=
  map sr_rep (transform_loan_repayments df).

Definition parsed_R1_on_time : ParsedRepayment :=
  mkParsedRepayment "R1" "L1" "C1" (Some 0%Z) (Some 3600000000000%Z)
                    (Some 100) "COMPLETE".

Definition parsed_R1_unparsed_date : ParsedRepayment :=
  mkParsedRepayment "R1" "L1" "C1" (Some 0%Z) None (Some 100) "PAID".

Definition parsed_R2_late : ParsedRepayment :=
  mkParsedRepayment "R2" "L1" "C1" (Some 0%Z)
                    (Some (2 * 86400000000000)%Z) (Some 50) "LATE PAYMENT".

(** ** The credit bureau transformer (bronze to silver) *)

(** Python's [int(x)] on a float: rounding toward zero. *)
Definition int_of_float (x : Q) : Z := Z.quot (Qnum x) (Z.pos (Qden x)).

(** [validate_credit_score]: a missing score and a score outside
    100..2000 give None, any other score its integer part. *)
Definition validate_credit_score (score : num) : num :=
  match score with
  | None => None
  | Some score =>
      if nltb (Some score) (Some 100) || nltb (Some 2000) (Some score)
      then None
      else Some (inject_Z (int_of_float score))
  end.

(** [s.replace(c, '')] for a character. *)
Fixpoint remove_char (c : ascii) (s : string) : string :=
  match s with
  | EmptyString => EmptyString
  | String a s' =>
      if (a =? c)%char then remove_char c s'
      else String a (remove_char c s')
  end.

(** The slice [s[n:]]. *)
Fixpoint drop (n : nat) (s : string) : string :=
  match n, s with
  | O, _ => s
  | S n', String _ s' => drop n' s'
  | S _, EmptyString => EmptyString
  end.

(** [mask_ssn] on a cell of the ssn column, which is a string after
    [astype(str)] and so never missing. *)
Definition mask_ssn (ssn : string) : string :=
  if (String.length ssn <? 4)%nat then ssn
  else
    let ssn_str := remove_char " " (remove_char "-" ssn) in
    if (4 <=? String.length ssn_str)%nat
    then ("XXX-XX-" ++ drop (String.length ssn_str - 4) ssn_str)%string
    else ssn.

(** A bronze credit bureau row after the conversions: the identifier and
    the ssn as stripped strings, the score as a float. *)
Record ParsedBureau := mkParsedBureau {
  pb_customer_id : string;
  pb_ssn : string;
  pb_credit_score : num
}.

(** A silver credit bureau row: the columns that the gold build reads, and
    the masked ssn. *)
Record SilverBureau := mkSilverBureau {
  sb_row : CreditBureau;
  sb_ssn : string
}.

Definition sb_customer_id (s : SilverBureau) : string :=
  cb_customer_id (sb_row s).

Definition cleansed_bureau_row (r : ParsedBureau) : SilverBureau :=
  mkSilverBureau
    (mkCreditBureau (pb_customer_id r)
                    (validate_credit_score (pb_credit_score r)))
    (mask_ssn (pb_ssn r)).

(** [transform_credit_bureau]: the score validation, the masking and the
    [drop_duplicates(subset=['customer_id'], keep='last')]. *)
Definition transform_credit_bureau (df : list ParsedBureau)
  : list SilverBureau :=
  drop_duplicates_last sb_customer_id (map cleansed_bureau_row df).

(** A score that the transformer lets through. *)
Definition valid_or_missing (score : num) : Prop :=
  score = NaN \/
  exists k, score = Some (inject_Z k) /\ (100 <= k <= 2000)%Z.

(* ================================================================== *)
(** * Properties *)

(** ** Sorting *)

Section SortFacts.
Context {A : Type} (leb : A -> A -> bool).
Hypothesis leb_total : forall x y, leb x y = true \/ leb y x = true.
Hypothesis leb_trans :
  forall x y z, leb x y = true -> leb y z = true -> leb x z = true.

Local Abbreviation ordered := (StronglySorted (fun a b => leb a b = true)).

Lemma leb_refl x : leb x x = true.
Proof. destruct (leb_total x x); assumption. Qed.

Lemma insert_row_perm x l : Permutation (insert_row leb x l) (x :: l).
Proof.
  induction l as [|y l IH]; simpl; [reflexivity|].
  destruct (leb x y); [reflexivity|].
  rewrite IH. apply perm_swap.
Qed.

Lemma sort_values_perm l : Permutation (sort_values leb l) l.
Proof.
  induction l as [|x l IH]; simpl; [reflexivity|].
  rewrite insert_row_perm. now constructor.
Qed.

Lemma insert_row_sorted x l : ordered l -> ordered (insert_row leb x l).
Proof.
  induction 1 as [|y l Hs IH Hy]; simpl.
  - repeat constructor.
  - destruct (leb x y) eqn:E.
    + constructor; [now constructor|].
      constructor; [assumption|].
      eapply Forall_impl; [|exact Hy]. intros z Hz. eauto.
    + constructor; [assumption|].
      eapply Permutation_Forall; [symmetry; apply insert_row_perm|].
      constructor; [|assumption].
      destruct (leb_total x y); congruence.
Qed.

Lemma sort_values_sorted l : ordered (sort_values leb l).
Proof.
  induction l; simpl; [constructor|now apply insert_row_sorted].
Qed.

Lemma tied_trans c x y :
  tied leb c x = true -> tied leb c y = true -> leb x y = true.
Proof.
  unfold tied. rewrite !andb_true_iff. intros [_ H1] [H2 _]. eauto.
Qed.

Lemma insert_row_filter_tied c x l :
  filter (tied leb c) (insert_row leb x l) = filter (tied leb c) (x :: l).
Proof.
  induction l as [|y l IH]; [reflexivity|].
  simpl insert_row. destruct (leb x y) eqn:E; [reflexivity|].
  change (filter (tied leb c) (y :: insert_row leb x l))
    with (if tied leb c y then y :: filter (tied leb c) (insert_row leb x l)
          else filter (tied leb c) (insert_row leb x l)).
  rewrite IH. simpl.
  destruct (tied leb c y) eqn:Ty, (tied leb c x) eqn:Tx; try reflexivity.
  rewrite (tied_trans c x y) in E; congruence.
Qed.

(** Stability: within a class of tied rows the input order is kept. *)
Lemma sort_values_stable c l :
  filter (tied leb c) (sort_values leb l) = filter (tied leb c) l.
Proof.
  induction l as [|x l IH]; [reflexivity|].
  simpl sort_values. rewrite insert_row_filter_tied. simpl. now rewrite IH.
Qed.

Lemma filter_In_hd (p : A -> bool) x l t :
  filter p l = x :: t -> In x l /\ p x = true.
Proof.
  intros H. apply filter_In. rewrite H. now left.
Qed.

(** Two ordered frames with the same tied classes are the same frame. *)
Lemma tied_refl x : tied leb x x = true.
Proof. unfold tied. now rewrite leb_refl. Qed.

Lemma sorted_tied_unique s1 :
  forall s2, ordered s1 -> ordered s2 ->
    (forall c, filter (tied leb c) s1 = filter (tied leb c) s2) -> s1 = s2.
Proof.
  induction s1 as [|x t1 IH]; intros s2 O1 O2 H.
  - destruct s2 as [|y t2]; [reflexivity|].
    specialize (H y). simpl in H. rewrite tied_refl in H. discriminate.
  - destruct s2 as [|y t2].
    + specialize (H x). simpl in H. rewrite tied_refl in H. discriminate.
    + inversion O1 as [|? ? O1' F1]; inversion O2 as [|? ? O2' F2]; subst.
      pose proof (tied_refl x) as Txx. pose proof (tied_refl y) as Tyy.
      assert (Lyx : leb y x = true).
      { pose proof (H x) as Hx. simpl in Hx. rewrite Txx in Hx.
        symmetry in Hx.
        change (filter (tied leb x) (y :: t2) = x :: filter (tied leb x) t1) in Hx.
        apply filter_In_hd in Hx. destruct Hx as [[->|Hx] _];
          [apply leb_refl|]. rewrite Forall_forall in F2. auto. }
      assert (Lxy : leb x y = true).
      { pose proof (H y) as Hy. simpl in Hy. rewrite Tyy in Hy.
        change (filter (tied leb y) (x :: t1) = y :: filter (tied leb y) t2) in Hy.
        apply filter_In_hd in Hy. destruct Hy as [[->|Hy] _];
          [apply leb_refl|]. rewrite Forall_forall in F1. auto. }
      assert (Txy : tied leb x y = true) by (unfold tied; now rewrite Lxy, Lyx).
      pose proof (H x) as Hx. simpl in Hx. rewrite Txx, Txy in Hx.
      injection Hx as -> _.
      f_equal. apply IH; try assumption.
      intros c. specialize (H c). simpl in H.
      destruct (tied leb c y); [now injection H|assumption].
Qed.

Lemma sort_values_canonical l1 l2 :
  (forall c, filter (tied leb c) l1 = filter (tied leb c) l2) ->
  sort_values leb l1 = sort_values leb l2.
Proof.
  intros H. apply sorted_tied_unique; try apply sort_values_sorted.
  intros c. now rewrite !sort_values_stable.
Qed.
End SortFacts.

(** ** Orders on the sort keys *)

Lemma string_leb_trans a b c :
  String.leb a b = true -> String.leb b c = true -> String.leb a c = true.
Proof.
  unfold String.leb. intros Hab Hbc.
  destruct (String.compare a b) eqn:Eab; try discriminate.
  - apply String.compare_eq_iff in Eab. now subst.
  - destruct (String.compare b c) eqn:Ebc; try discriminate.
    + apply String.compare_eq_iff in Ebc. subst. now rewrite Eab.
    + change (String_as_OT.cmp a b = Lt) in Eab.
      change (String_as_OT.cmp b c = Lt) in Ebc.
      rewrite String_as_OT.cmp_lt in Eab, Ebc.
      pose proof (String_as_OT.lt_trans _ _ _ Eab Ebc) as Hac.
      rewrite <- String_as_OT.cmp_lt in Hac.
      unfold String_as_OT.cmp in Hac. now rewrite Hac.
Qed.

Lemma date_leb_total a b : date_leb a b = true \/ date_leb b a = true.
Proof. destruct a, b; simpl; auto; lia. Qed.

Lemma date_leb_trans a b c :
  date_leb a b = true -> date_leb b c = true -> date_leb a c = true.
Proof. destruct a, b, c; simpl; auto; try discriminate; lia. Qed.

Lemma date_leb_antisym a b :
  date_leb a b = true -> date_leb b a = true -> a = b.
Proof.
  destruct a, b; simpl; auto; try discriminate.
  intros. f_equal. lia.
Qed.

Lemma date_geb_total a b : date_geb a b = true \/ date_geb b a = true.
Proof. destruct a, b; simpl; auto; lia. Qed.

Lemma date_geb_trans a b c :
  date_geb a b = true -> date_geb b c = true -> date_geb a c = true.
Proof. destruct a, b, c; simpl; auto; try discriminate; lia. Qed.

Section LoanDateOrder.
Context {A : Type} (lid : A -> string) (pd : A -> option Z).

Lemma by_loan_and_date_total x y :
  by_loan_and_date lid pd x y = true \/ by_loan_and_date lid pd y x = true.
Proof.
  unfold by_loan_and_date. rewrite (String.eqb_sym (lid y)).
  destruct (lid x =? lid y)%string.
  - apply date_leb_total.
  - apply String.leb_total.
Qed.

Lemma by_loan_and_date_trans x y z :
  by_loan_and_date lid pd x y = true -> by_loan_and_date lid pd y z = true ->
  by_loan_and_date lid pd x z = true.
Proof.
  unfold by_loan_and_date.
  destruct (String.eqb_spec (lid x) (lid y)) as [Exy|Nxy];
  destruct (String.eqb_spec (lid y) (lid z)) as [Eyz|Nyz];
  destruct (String.eqb_spec (lid x) (lid z)) as [Exz|Nxz];
    intros H1 H2; try congruence.
  - eapply date_leb_trans; eassumption.
  - rewrite <- Exz in H2. elim Nxy. now apply String.leb_antisym.
  - eapply string_leb_trans; eassumption.
Qed.
End LoanDateOrder.

Lemma loan_date_leb_total x y :
  loan_date_leb x y = true \/ loan_date_leb y x = true.
Proof. apply by_loan_and_date_total. Qed.

Lemma loan_date_leb_trans x y z :
  loan_date_leb x y = true -> loan_date_leb y z = true ->
  loan_date_leb x z = true.
Proof. apply by_loan_and_date_trans. Qed.

Lemma tied_loan_date c x :
  tied loan_date_leb c x = true <->
  a_loan_id x = a_loan_id c /\ a_payment_date x = a_payment_date c.
Proof.
  unfold tied, loan_date_leb, by_loan_and_date.
  rewrite (String.eqb_sym (a_loan_id x)).
  destruct (String.eqb_spec (a_loan_id c) (a_loan_id x)) as [E|N].
  - rewrite andb_true_iff. split.
    + intros [H1 H2]. split; [congruence|]. now apply date_leb_antisym.
    + intros [_ ->]. destruct (date_leb_total (a_payment_date c) (a_payment_date c)); auto.
  - split.
    + rewrite andb_true_iff. intros [H1 H2]. elim N. now apply String.leb_antisym.
    + intros [H _]. congruence.
Qed.

(** ** The amortization loop, loan by loan *)

Lemma loan_rows_amortize_same lid rate : forall fact bal,
  map row_outputs (loan_rows lid (amortize_rows lid rate bal fact)) =
  amortization_fold rate bal (map a_amount_paid (loan_rows lid fact)).
Proof.
  unfold loan_rows. induction fact as [|r fact IH]; intros bal; [reflexivity|].
  simpl. destruct (a_loan_id r =? lid)%string eqn:E; simpl.
  - unfold a_loan_id at 1. simpl. fold (a_loan_id r). rewrite E. simpl.
    now rewrite IH.
  - rewrite E. apply IH.
Qed.

Lemma loan_rows_amortize_other lid lid' rate : lid' <> lid -> forall fact bal,
  loan_rows lid' (amortize_rows lid rate bal fact) = loan_rows lid' fact.
Proof.
  intros N. unfold loan_rows. induction fact as [|r fact IH]; intros bal;
    [reflexivity|].
  simpl. destruct (String.eqb_spec (a_loan_id r) lid) as [E|E]; simpl.
  - unfold a_loan_id at 1 3. simpl. fold (a_loan_id r).
    destruct (String.eqb_spec (a_loan_id r) lid'); [congruence|]. apply IH.
  - now rewrite IH.
Qed.

Lemma row_inputs_amortize lid rate : forall fact bal,
  map row_inputs (amortize_rows lid rate bal fact) = map row_inputs fact.
Proof.
  induction fact as [|r fact IH]; intros bal; [reflexivity|].
  simpl. destruct (a_loan_id r =? lid)%string; simpl; now rewrite IH.
Qed.

Lemma loan_rows_estimate_same lid fact :
  map row_outputs (loan_rows lid (estimate_rows lid fact)) =
  fallback_outputs (map a_amount_paid (loan_rows lid fact)).
Proof.
  unfold loan_rows, estimate_rows, fallback_outputs.
  induction fact as [|r fact IH]; [reflexivity|].
  simpl. destruct (a_loan_id r =? lid)%string eqn:E; simpl.
  - unfold a_loan_id at 1. simpl. fold (a_loan_id r). rewrite E. simpl.
    now rewrite IH.
  - rewrite E. apply IH.
Qed.

Lemma loan_rows_estimate_other lid lid' fact : lid' <> lid ->
  loan_rows lid' (estimate_rows lid fact) = loan_rows lid' fact.
Proof.
  intros N. unfold loan_rows, estimate_rows.
  induction fact as [|r fact IH]; [reflexivity|].
  simpl. destruct (String.eqb_spec (a_loan_id r) lid) as [E|E]; simpl.
  - unfold a_loan_id at 1 3. simpl. fold (a_loan_id r).
    destruct (String.eqb_spec (a_loan_id r) lid'); [congruence|]. apply IH.
  - now rewrite IH.
Qed.

Lemma row_inputs_estimate lid fact :
  map row_inputs (estimate_rows lid fact) = map row_inputs fact.
Proof.
  unfold estimate_rows. induction fact as [|r fact IH]; [reflexivity|].
  simpl. destruct (a_loan_id r =? lid)%string; simpl; now rewrite IH.
Qed.

Lemma loan_rows_nonempty lid fact :
  In lid (map a_loan_id fact) -> loan_rows lid fact <> [].
Proof.
  intros H. apply in_map_iff in H. destruct H as [r [E Hr]].
  assert (In r (loan_rows lid fact)) as Hin.
  { apply filter_In. split; [assumption|]. now apply String.eqb_eq. }
  intros C. now rewrite C in Hin.
Qed.

(** One iteration of the outer loop. *)
Lemma process_loan_spec fact lid :
  In lid (map a_loan_id fact) ->
  exists fact',
    process_loan fact lid = Some fact' /\
    map row_inputs fact' = map row_inputs fact /\
    map row_outputs (loan_rows lid fact') = loan_result (loan_rows lid fact) /\
    forall lid', lid' <> lid -> loan_rows lid' fact' = loan_rows lid' fact.
Proof.
  intros Hin. apply loan_rows_nonempty in Hin.
  unfold process_loan, loan_result. fold (loan_rows lid fact).
  destruct (loan_rows lid fact) as [|first rest] eqn:E; [congruence|].
  rewrite <- E.
  destruct (isna (a_loan_amount first) || isna (a_interest_rate first)).
  - eexists. split; [reflexivity|]. split; [apply row_inputs_estimate|].
    split; [apply loan_rows_estimate_same|].
    intros. now apply loan_rows_estimate_other.
  - eexists. split; [reflexivity|]. split; [apply row_inputs_amortize|].
    split; [apply loan_rows_amortize_same|].
    intros. now apply loan_rows_amortize_other.
Qed.

Lemma map_a_loan_id_inputs f f' :
  map row_inputs f' = map row_inputs f -> map a_loan_id f' = map a_loan_id f.
Proof.
  intros H.
  assert (forall l, map a_loan_id l =
                    map (fun t => r_loan_id (fst (fst (fst t)))) (map row_inputs l)) as M.
  { intros l. rewrite map_map. reflexivity. }
  now rewrite !M, H.
Qed.

(** The whole outer loop over distinct loan ids. *)
Lemma process_loans_spec lids : forall fact,
  NoDup lids ->
  (forall lid, In lid lids -> In lid (map a_loan_id fact)) ->
  exists out,
    process_loans fact lids = Some out /\
    map row_inputs out = map row_inputs fact /\
    (forall lid, In lid lids ->
       map row_outputs (loan_rows lid out) = loan_result (loan_rows lid fact)) /\
    (forall lid, ~ In lid lids -> loan_rows lid out = loan_rows lid fact).
Proof.
  unfold process_loans.
  induction lids as [|lid lids IH]; intros fact ND Hall.
  - exists fact. simpl. repeat split; tauto.
  - inversion ND as [|? ? Hnot ND']; subst.
    destruct (process_loan_spec fact lid) as [f1 [E1 [I1 [O1 P1]]]];
      [apply Hall; now left|].
    simpl. rewrite E1.
    destruct (IH f1 ND') as [out [E2 [I2 [O2 P2]]]].
    { intros l Hl. rewrite (map_a_loan_id_inputs _ _ I1). apply Hall. now right. }
    exists out. split; [exact E2|]. split; [congruence|]. split.
    + intros l [<-|Hl].
      * rewrite (P2 lid Hnot). exact O1.
      * rewrite (O2 l Hl). rewrite P1; [reflexivity|]. congruence.
    + intros l Hl. rewrite P2 by (intros C; apply Hl; now right).
      apply P1. intros ->. apply Hl. now left.
Qed.

(** ** drop_duplicates and unique *)

Section DropDuplicates.
Context {A : Type} (key : A -> string).

Lemma drop_duplicates_incl x l : In x (drop_duplicates key l) -> In x l.
Proof.
  induction l as [|y l IH]; simpl; [tauto|].
  intros [->|H]; [now left|]. apply filter_In in H. right. tauto.
Qed.

Lemma drop_duplicates_keys k l :
  In k (map key (drop_duplicates key l)) <-> In k (map key l).
Proof.
  induction l as [|y l IH]; simpl; [tauto|].
  split.
  - intros [H|H]; [now left|]. right. apply IH.
    apply in_map_iff in H. destruct H as [z [<- Hz]].
    apply filter_In in Hz. apply in_map. tauto.
  - intros [H|H]; [now left|].
    destruct (String.eqb_spec k (key y)) as [E|N]; [now left|]. right.
    apply IH in H. apply in_map_iff in H. destruct H as [z [<- Hz]].
    apply in_map. apply filter_In. split; [assumption|].
    apply negb_true_iff. now apply String.eqb_neq.
Qed.

Lemma NoDup_map_filter (p : A -> bool) l :
  NoDup (map key l) -> NoDup (map key (filter p l)).
Proof.
  induction l as [|y l IH]; simpl; [trivial|].
  intros H. inversion H as [|? ? Hn Hd]; subst.
  destruct (p y); simpl; [|auto].
  constructor; [|auto]. intros C. apply Hn.
  apply in_map_iff in C. destruct C as [z [<- Hz]].
  apply filter_In in Hz. apply in_map. tauto.
Qed.

Lemma drop_duplicates_NoDup l : NoDup (map key (drop_duplicates key l)).
Proof.
  induction l as [|y l IH]; simpl; constructor.
  - intros C. apply in_map_iff in C. destruct C as [z [E Hz]].
    apply filter_In in Hz. destruct Hz as [_ Hz].
    rewrite E, String.eqb_refl in Hz. discriminate.
  - now apply NoDup_map_filter.
Qed.
End DropDuplicates.

Lemma unique_NoDup l : NoDup (unique l).
Proof.
  unfold unique. rewrite <- (map_id (drop_duplicates _ l)).
  apply (drop_duplicates_NoDup (fun s => s)).
Qed.

Lemma unique_In k l : In k (unique l) <-> In k l.
Proof.
  unfold unique.
  pose proof (drop_duplicates_keys (fun s => s) k l) as H.
  now rewrite !map_id in H.
Qed.

Lemma loan_rows_absent lid fact :
  ~ In lid (map a_loan_id fact) -> loan_rows lid fact = [].
Proof.
  unfold loan_rows. induction fact as [|r fact IH]; simpl; [trivial|].
  intros H. destruct (String.eqb_spec (a_loan_id r) lid); [tauto|].
  apply IH. tauto.
Qed.

(** The engine never fails, keeps the columns it reads, and writes on the
    rows of each loan what [loan_result] reads off them. *)
Lemma calculate_amortization_spec df dim_loan :
  exists out,
    calculate_amortization df dim_loan = Some out /\
    map row_inputs out =
      map row_inputs (sort_values loan_date_leb (merge_left df dim_loan)) /\
    forall lid,
      map row_outputs (loan_rows lid out) =
      loan_result (loan_rows lid
                     (sort_values loan_date_leb (merge_left df dim_loan))).
Proof.
  unfold calculate_amortization.
  set (fact := sort_values loan_date_leb (merge_left df dim_loan)).
  destruct (process_loans_spec (unique (map a_loan_id fact)) fact)
    as [out [E [I [O P]]]].
  - apply unique_NoDup.
  - intros lid. apply unique_In.
  - exists out. split; [exact E|]. split; [exact I|].
    intros lid. destruct (in_dec string_dec lid (unique (map a_loan_id fact)))
      as [Hin|Hout].
    + now apply O.
    + rewrite (P lid Hout). rewrite unique_In in Hout.
      now rewrite (loan_rows_absent _ _ Hout).
Qed.

Lemma loan_rows_inputs lid : forall f f',
  map row_inputs f' = map row_inputs f ->
  map row_inputs (loan_rows lid f') = map row_inputs (loan_rows lid f).
Proof.
  unfold loan_rows.
  induction f as [|r f IH]; intros [|r' f'] H; try discriminate; [reflexivity|].
  pose proof (f_equal (hd (row_inputs r)) H) as Hr.
  pose proof (f_equal (@tl _) H) as Hf. cbn [map hd tl] in Hr, Hf.
  assert (a_loan_id r' = a_loan_id r) as E.
  { unfold a_loan_id. unfold row_inputs in Hr. congruence. }
  cbn [filter]. rewrite E.
  destruct (a_loan_id r =? lid)%string; cbn [map]; [rewrite Hr; f_equal|]; auto.
Qed.

Lemma map_amount_inputs f f' :
  map row_inputs f' = map row_inputs f ->
  map a_amount_paid f' = map a_amount_paid f.
Proof.
  intros H.
  assert (forall l, map a_amount_paid l =
                    map (fun t => r_amount_paid (fst (fst (fst t))))
                        (map row_inputs l)) as M.
  { intros l. rewrite map_map. reflexivity. }
  now rewrite !M, H.
Qed.

Lemma map_payment_date_inputs f f' :
  map row_inputs f' = map row_inputs f ->
  map a_payment_date f' = map a_payment_date f.
Proof.
  intros H.
  assert (forall l, map a_payment_date l =
                    map (fun t => r_payment_date (fst (fst (fst t))))
                        (map row_inputs l)) as M.
  { intros l. rewrite map_map. reflexivity. }
  now rewrite !M, H.
Qed.

(** ** Python's min and max on finite values *)

Lemma pymin_finite a b : pymin (Some a) (Some b) = Some (Qmin a b).
Proof.
  unfold pymin, nltb, Qmin, GenericMinMax.gmin, Qle_bool, Qcompare, Z.leb.
  destruct (Qnum a * QDen b ?= Qnum b * QDen a)%Z; reflexivity.
Qed.

Lemma pymax_finite a b : pymax (Some a) (Some b) = Some (Qmax a b).
Proof.
  unfold pymax, nltb, Qmax, GenericMinMax.gmax, Qle_bool, Qcompare, Z.leb.
  rewrite (Z.compare_antisym (Qnum a * QDen b) (Qnum b * QDen a)).
  destruct (Qnum a * QDen b ?= Qnum b * QDen a)%Z; reflexivity.
Qed.

Lemma amortization_fold_finite rate : forall amounts bal,
  amortization_fold (Some rate) (Some bal) (map Some amounts) =
  map finite3 (spec_fold rate bal amounts).
Proof.
  induction amounts as [|a amounts IH]; intros bal; [reflexivity|].
  simpl. rewrite pymin_finite. simpl. rewrite pymax_finite.
  now rewrite IH.
Qed.

(** ** One step of the fold *)

Ltac qcases :=
  repeat match goal with
  | |- context [Qle_bool ?x ?y] =>
      let E := fresh "E" in
      destruct (Qle_bool x y) eqn:E;
      [apply Qle_bool_iff in E
      |apply not_true_iff_false in E; rewrite Qle_bool_iff in E]
  end.


Lemma step_balance rate bal amt :
  exists q,
    pymax (Some 0) (nsub bal (nsub amt (pymin amt (nmul bal rate)))) = Some q /\
    0 <= q /\
    forall b, bal = Some b -> 0 <= b -> q <= b.
Proof.
  destruct bal as [b|], rate as [r|], amt as [a|];
    unfold pymax, pymin, nltb; simpl; qcases; simpl; qcases; simpl;
    eexists; (split; [reflexivity|]); (split; [lra|]);
    intros b' Hb; inversion Hb; subst; intros; lra.
Qed.

Lemma fold_balances_from rate : forall pays b,
  0 <= b ->
  Sorted (fun prev next => num_le next prev)
         (Some b :: map balance_of (amortization_fold rate (Some b) pays)) /\
  Forall (num_le (Some 0))
         (map balance_of (amortization_fold rate (Some b) pays)).
Proof.
  induction pays as [|a pays IH]; intros b Hb.
  - split; repeat constructor.
  - cbn [amortization_fold map balance_of snd].
    destruct (step_balance rate (Some b) a) as [q [E [Hq Hle]]].
    rewrite E. destruct (IH q Hq) as [S F]. split.
    + constructor; [exact S|]. constructor. simpl. now apply Hle.
    + constructor; [exact Hq|exact F].
Qed.

Lemma fold_balances rate pays bal :
  Sorted (fun prev next => num_le next prev)
         (map balance_of (amortization_fold rate bal pays)) /\
  Forall (num_le (Some 0)) (map balance_of (amortization_fold rate bal pays)).
Proof.
  destruct pays as [|a pays]; [split; constructor|].
  cbn [amortization_fold map balance_of snd].
  destruct (step_balance rate bal a) as [q [E [Hq _]]].
  rewrite E. destruct (fold_balances_from rate pays q Hq) as [S F].
  split; [exact S|]. constructor; [exact Hq|exact F].
Qed.

Lemma fallback_balances pays :
  Sorted (fun prev next => num_le next prev)
         (map balance_of (fallback_outputs pays)) /\
  Forall (num_le (Some 0)) (map balance_of (fallback_outputs pays)).
Proof.
  unfold fallback_outputs. induction pays as [|a pays [S F]]; simpl.
  - split; constructor.
  - split.
    + constructor; [exact S|]. destruct pays; constructor. simpl. lra.
    + constructor; [simpl; lra|exact F].
Qed.

Lemma loan_result_balances rows :
  Sorted (fun prev next => num_le next prev)
         (map balance_of (loan_result rows)) /\
  Forall (num_le (Some 0)) (map balance_of (loan_result rows)).
Proof.
  unfold loan_result. destruct rows as [|first rest]; [split; constructor|].
  destruct (isna (a_loan_amount first) || isna (a_interest_rate first)).
  - apply fallback_balances.
  - apply fold_balances.
Qed.




Lemma Forall2_map_same {A B C : Type} (R : B -> C -> Prop)
    (f : A -> B) (g : A -> C) (l : list A) :
  Forall2 R (map f l) (map g l) -> Forall (fun x => R (f x) (g x)) l.
Proof.
  induction l as [|x l IH]; simpl; intros H; constructor;
    inversion H; subst; auto.
Qed.

(** ** Order of the rows of one loan *)

Lemma StronglySorted_filter {A : Type} (R : A -> A -> Prop) (p : A -> bool) l :
  StronglySorted R l -> StronglySorted R (filter p l).
Proof.
  induction 1 as [|x l S IH F]; simpl; [constructor|].
  destruct (p x); [|exact IH]. constructor; [exact IH|].
  rewrite Forall_forall in *. intros y Hy. apply F.
  apply filter_In in Hy. tauto.
Qed.

Lemma loan_rows_dates_sorted lid fact :
  StronglySorted (fun a b => loan_date_leb a b = true) fact ->
  Sorted (fun a b => date_leb a b = true)
         (map a_payment_date (loan_rows lid fact)).
Proof.
  intros S. apply StronglySorted_Sorted.
  assert (Forall (fun r => a_loan_id r = lid) (loan_rows lid fact)) as Hl.
  { apply Forall_forall. intros r Hr. apply filter_In in Hr.
    now apply String.eqb_eq. }
  apply (StronglySorted_filter _ (fun r => (a_loan_id r =? lid)%string)) in S.
  fold (loan_rows lid fact) in S.
  induction S as [|x l S IH F]; simpl; [constructor|].
  inversion Hl as [|? ? Hx Hl']; subst. constructor; [now apply IH|].
  rewrite Forall_forall in *. intros d Hd.
  apply in_map_iff in Hd. destruct Hd as [y [<- Hy]].
  specialize (F y Hy). unfold loan_date_leb, by_loan_and_date in F.
  rewrite (Hl' y Hy), String.eqb_refl in F. exact F.
Qed.

(** ** The join and the sort under a reordering of the input *)

Lemma NoDup_filter_key {A : Type} (key : A -> string) k l :
  NoDup (map key l) ->
  filter (fun x => (key x =? k)%string) l = [] \/
  exists x, filter (fun x => (key x =? k)%string) l = [x].
Proof.
  induction l as [|y l IH]; simpl; [now left|].
  intros H. inversion H as [|? ? Hn Hd]; subst.
  destruct (String.eqb_spec (key y) k) as [E|N]; [|auto].
  right. exists y. f_equal.
  destruct (filter (fun x => (key x =? k)%string) l) as [|z t] eqn:F;
    [reflexivity|].
  exfalso. apply Hn.
  assert (In z (filter (fun x => (key x =? k)%string) l)) as Hz
    by (rewrite F; now left).
  apply filter_In in Hz. destruct Hz as [Hz Ez].
  apply String.eqb_eq in Ez. rewrite E, <- Ez. now apply in_map.
Qed.

Lemma merge_loan_rep dim_loan r a : In a (merge_loan dim_loan r) -> a_rep a = r.
Proof.
  unfold merge_loan.
  destruct (filter _ dim_loan) as [|d ms]; simpl.
  - intros [<-|[]]. reflexivity.
  - intros [<-|H]; [reflexivity|].
    apply in_map_iff in H. destruct H as [d' [<- _]]. reflexivity.
Qed.

Lemma merge_loan_joined dim_loan r a :
  NoDup (map dl_loan_id dim_loan) -> In a (merge_loan dim_loan r) ->
  (a_loan_amount a, a_interest_rate a) =
  joined_loan_data dim_loan (r_loan_id r).
Proof.
  intros ND. unfold merge_loan, joined_loan_data.
  destruct (NoDup_filter_key dl_loan_id (r_loan_id r) dim_loan ND)
    as [->|[d ->]]; simpl; intros [<-|[]]; reflexivity.
Qed.

Lemma tied_rep c a a' :
  a_rep a = a_rep a' -> tied loan_date_leb c a = tied loan_date_leb c a'.
Proof.
  intros H. unfold tied, loan_date_leb, by_loan_and_date, a_loan_id,
    a_payment_date.
  now rewrite H.
Qed.

Lemma filter_none {B : Type} (p : B -> bool) (l : list B) :
  (forall b, In b l -> p b = false) -> filter p l = [].
Proof.
  induction l as [|b l IH]; intros H; [reflexivity|]. simpl.
  rewrite (H b) by now left. apply IH. intros; apply H; now right.
Qed.

Lemma filter_all {B : Type} (p : B -> bool) (l : list B) :
  (forall b, In b l -> p b = true) -> filter p l = l.
Proof.
  induction l as [|b l IH]; intros H; [reflexivity|]. simpl.
  rewrite (H b) by now left. f_equal. apply IH. intros; apply H; now right.
Qed.

Lemma filter_flat_map {A B : Type} (p : B -> bool) (q : A -> bool)
    (f : A -> list B) l :
  (forall x b, In b (f x) -> p b = q x) ->
  filter p (flat_map f l) = flat_map f (filter q l).
Proof.
  intros H. induction l as [|x l IH]; [reflexivity|].
  simpl. rewrite filter_app, IH.
  destruct (q x) eqn:Q; simpl.
  - f_equal. apply filter_all. intros b Hb. now rewrite (H x b Hb).
  - rewrite filter_none; [reflexivity|]. intros b Hb. now rewrite (H x b Hb).
Qed.

Lemma filter_perm_unique {A K : Type} (k : A -> K) (q : A -> bool) l l' :
  (forall x y, q x = true -> q y = true -> k x = k y) ->
  Permutation l l' -> NoDup (map k l) -> filter q l = filter q l'.
Proof.
  intros Hq P. induction P as [|x l l' P IH|x y l|l l' l'' P1 IH1 P2 IH2];
    intros ND.
  - reflexivity.
  - simpl. inversion ND; subst. rewrite IH by assumption. reflexivity.
  - simpl. destruct (q x) eqn:Qx, (q y) eqn:Qy; try reflexivity.
    exfalso. inversion ND as [|? ? Hn _]; subst. apply Hn.
    left. now apply Hq.
  - rewrite IH1 by assumption. apply IH2.
    eapply Permutation_NoDup; [|exact ND]. now apply Permutation_map.
Qed.

Lemma sorted_merge_reorder df df' dim_loan :
  Permutation df df' -> NoDup (map repayment_key df) ->
  sort_values loan_date_leb (merge_left df' dim_loan) =
  sort_values loan_date_leb (merge_left df dim_loan).
Proof.
  intros P ND.
  apply sort_values_canonical;
    [apply loan_date_leb_total|apply loan_date_leb_trans|].
  intros c. unfold merge_left.
  set (q := fun r => tied loan_date_leb c
                       (mkAmortRow r NaN NaN NaN NaN NaN NaN)).
  assert (forall r a, In a (merge_loan dim_loan r) ->
                      tied loan_date_leb c a = q r) as Hq.
  { intros r a Ha. apply tied_rep. simpl. now apply merge_loan_rep in Ha. }
  rewrite !(filter_flat_map _ q) by exact Hq. f_equal.
  symmetry. apply (filter_perm_unique repayment_key); [|exact P|exact ND].
  intros x y Hx Hy. unfold q in *.
  apply tied_loan_date in Hx, Hy. unfold a_loan_id, a_payment_date in *.
  simpl in *. unfold repayment_key. destruct Hx, Hy. congruence.
Qed.

(** ** The amortization engine *)

Lemma out_rows_joined df dim_loan out r :
  NoDup (map dl_loan_id dim_loan) ->
  map row_inputs out =
    map row_inputs (sort_values loan_date_leb (merge_left df dim_loan)) ->
  In r out ->
  (a_loan_amount r, a_interest_rate r) = joined_loan_data dim_loan (a_loan_id r).
Proof.
  intros ND I Hr.
  apply (in_map row_inputs) in Hr. rewrite I in Hr.
  apply in_map_iff in Hr. destruct Hr as [a [Ea Ha]].
  eapply Permutation_in in Ha;
    [|apply sort_values_perm].
  unfold merge_left in Ha. apply in_flat_map in Ha.
  destruct Ha as [p [_ Ha]].
  pose proof (merge_loan_rep _ _ _ Ha) as Hp.
  pose proof (merge_loan_joined _ _ _ ND Ha) as Hj.
  unfold row_inputs in Ea. unfold a_loan_id.
  replace (a_loan_amount r) with (a_loan_amount a) by congruence.
  replace (a_interest_rate r) with (a_interest_rate a) by congruence.
  replace (a_rep r) with p by congruence. exact Hj.
Qed.

(** C1. [calculate_amortization] always returns; it keeps the joined and
    sorted frame and only fills the three output columns.  For a loan whose
    first row (in (loan_id, payment_date) order) carries both loan_amount
    and interest_rate, the rows of the loan receive the outputs of the
    sequential fold started at running_balance = loan_amount with
    monthly_rate = interest_rate / 100 / 12: interest_paid =
    min(amount_paid, running_balance * monthly_rate), principal_paid =
    amount_paid - interest_paid, outstanding_balance = max(0,
    running_balance - principal_paid), which is the next running balance
    (on finite amounts this is the fold with the rational min and max).
    For a loan whose loan_amount or interest_rate is missing, the rows
    receive outstanding_balance = 0, principal_paid = amount_paid and
    interest_paid = 0.  With one dim_loan row per loan_id every row of a
    loan carries the same joined loan data.  The scenario loan of 1200 at
    12 percent with one payment of 100 gets 12, 88 and 1112. *)
Theorem calculate_amortization_fold :
  (forall df dim_loan,
     let fact := sort_values loan_date_leb (merge_left df dim_loan) in
     exists out,
       calculate_amortization df dim_loan = Some out /\
       map row_inputs out = map row_inputs fact /\
       (forall lid first rest la ir,
          loan_rows lid fact = first :: rest ->
          a_loan_amount first = Some la ->
          a_interest_rate first = Some ir ->
          map row_outputs (loan_rows lid out) =
            amortization_fold (Some (ir / 100 / 12)) (Some la)
                              (map a_amount_paid (first :: rest)) /\
          forall amounts,
            map a_amount_paid (first :: rest) = map Some amounts ->
            map row_outputs (loan_rows lid out) =
              map finite3 (spec_fold (ir / 100 / 12) la amounts)) /\
       (forall lid first rest,
          loan_rows lid fact = first :: rest ->
          a_loan_amount first = None \/ a_interest_rate first = None ->
          map row_outputs (loan_rows lid out) =
            fallback_outputs (map a_amount_paid (first :: rest))) /\
       (NoDup (map dl_loan_id dim_loan) ->
        forall r, In r out ->
          (a_loan_amount r, a_interest_rate r) =
          joined_loan_data dim_loan (a_loan_id r))) /\
  (exists row,
     calculate_amortization [scenario_payment] [scenario_loan] = Some [row] /\
     a_interest_paid row =n= Some 12 /\
     a_principal_paid row =n= Some 88 /\
     a_outstanding_balance row =n= Some 1112).
Proof.
  split.
  - intros df dim_loan fact.
    destruct (calculate_amortization_spec df dim_loan) as [out [E [I O]]].
    fold fact in I, O. exists out. split; [exact E|]. split; [exact I|].
    split; [|split].
    + intros lid first rest la ir Hrows Hla Hir.
      assert (map row_outputs (loan_rows lid out) =
              amortization_fold (Some (ir / 100 / 12)) (Some la)
                                (map a_amount_paid (first :: rest))) as Hfold.
      { rewrite O, Hrows. unfold loan_result. rewrite Hla, Hir. reflexivity. }
      split; [exact Hfold|].
      intros amounts Ha. rewrite Hfold, Ha. apply amortization_fold_finite.
    + intros lid first rest Hrows Hmiss.
      rewrite O, Hrows. unfold loan_result.
      destruct Hmiss as [-> | ->]; simpl; [reflexivity|].
      now rewrite orb_true_r.
    + intros ND r Hr. eapply out_rows_joined; eauto.
  - eexists. split; [vm_compute; reflexivity|].
    repeat split; vm_compute; reflexivity.
Qed.

Lemma calculate_amortization_fold_witness :
  exists out,
    calculate_amortization [same_day_100; next_day_50] [scenario_loan]
      = Some out /\
    map row_outputs (loan_rows "L1" out) =
      map finite3 (spec_fold (12 / 100 / 12) 1200 [100; 50]).
Proof.
  destruct (proj1 calculate_amortization_fold
                  [same_day_100; next_day_50] [scenario_loan])
    as [out [E [_ [H _]]]].
  exists out. split; [exact E|].
  refine (proj2 (H "L1"%string _ _ 1200 12 eq_refl eq_refl eq_refl)
                [100; 50] eq_refl).
Defined.

(** C2. In the output of [calculate_amortization], the rows of every loan
    stand in payment_date order (missing dates last), their
    outstanding_balance never increases from one row to the next, and it is
    a number that is at least 0 on every row, on the fold path and on the
    missing-loan-data path alike. *)
Theorem outstanding_balance_monotone :
  forall df dim_loan,
  exists out,
    calculate_amortization df dim_loan = Some out /\
    forall lid,
      Sorted (fun a b => date_leb a b = true)
             (map a_payment_date (loan_rows lid out)) /\
      Sorted (fun prev next => num_le next prev)
             (map a_outstanding_balance (loan_rows lid out)) /\
      Forall (num_le (Some 0))
             (map a_outstanding_balance (loan_rows lid out)).
Proof.
  intros df dim_loan.
  destruct (calculate_amortization_spec df dim_loan) as [out [E [I O]]].
  exists out. split; [exact E|]. intros lid. split.
  - rewrite (map_payment_date_inputs _ _ (loan_rows_inputs lid _ _ I)).
    apply loan_rows_dates_sorted. apply sort_values_sorted.
    + apply loan_date_leb_total.
    + apply loan_date_leb_trans.
  - assert (map a_outstanding_balance (loan_rows lid out) =
            map balance_of (map row_outputs (loan_rows lid out))) as ->.
    { rewrite map_map. reflexivity. }
    rewrite O. apply loan_result_balances.
Qed.



(** C4, as stated, fails: two payments of the same loan on the same day
    are processed in the order in which the input lists them, and swapping
    them changes the outputs recorded for repayment R1. *)
Lemma amortization_reorder_same_day :
  Permutation [same_day_100; same_day_50] [same_day_50; same_day_100] /\
  exists out out' b b',
    calculate_amortization [same_day_100; same_day_50] [scenario_loan]
      = Some out /\
    calculate_amortization [same_day_50; same_day_100] [scenario_loan]
      = Some out' /\
    map balance_of (outputs_of "R1" out) = [Some b] /\
    map balance_of (outputs_of "R1" out') = [Some b'] /\
    b == 1112 /\ b' == 107362 # 100 /\ ~ b == b'.
Proof.
  split; [apply perm_swap|].
  do 4 eexists.
  split; [vm_compute; reflexivity|].
  split; [vm_compute; reflexivity|].
  split; [vm_compute; reflexivity|].
  split; [vm_compute; reflexivity|].
  split; [reflexivity|]. split; [reflexivity|].
  intros H. vm_compute in H. discriminate H.
Qed.

(** C4, amended. When no two input repayments share both loan_id and
    payment_date (two missing dates count as shared), every permutation of
    the input rows gives the same result of [calculate_amortization], row
    for row. *)
Theorem amortization_reorder_distinct_dates :
  forall df df' dim_loan,
    Permutation df df' ->
    NoDup (map repayment_key df) ->
    calculate_amortization df' dim_loan = calculate_amortization df dim_loan.
Proof.
  intros df df' dim_loan P ND. unfold calculate_amortization.
  now rewrite (sorted_merge_reorder df df' dim_loan P ND).
Qed.

Lemma amortization_reorder_distinct_dates_witness :
  calculate_amortization [next_day_50; same_day_100] [scenario_loan] =
  calculate_amortization [same_day_100; next_day_50] [scenario_loan].
Proof.
  apply amortization_reorder_distinct_dates.
  - apply perm_swap.
  - constructor.
    + simpl. intros [H|[]]. discriminate H.
    + constructor; [simpl; tauto|constructor].
Defined.

(** ** Sorting and selecting *)

Section SortFilter.
Context {A : Type} (leb : A -> A -> bool).
Hypothesis leb_total : forall x y, leb x y = true \/ leb y x = true.
Hypothesis leb_trans :
  forall x y z, leb x y = true -> leb y z = true -> leb x z = true.

Local Abbreviation ordered := (StronglySorted (fun a b => leb a b = true)).

Lemma insert_row_head x l :
  (forall z, In z l -> leb x z = true) -> insert_row leb x l = x :: l.
Proof.
  destruct l as [|y l]; [reflexivity|]. intros H. simpl.
  now rewrite (H y) by now left.
Qed.

Lemma sorted_head_dominates x l y :
  ordered (x :: l) -> In y (x :: l) -> leb x y = true.
Proof.
  intros S [<-|Hy]; [now apply leb_refl|].
  inversion S as [|? ? _ F]; subst. rewrite Forall_forall in F. auto.
Qed.

Lemma filter_insert_row (p : A -> bool) x l :
  ordered l ->
  filter p (insert_row leb x l) =
  if p x then insert_row leb x (filter p l) else filter p l.
Proof.
  induction 1 as [|y l S IH F].
  - simpl. now destruct (p x).
  - cbn [insert_row]. destruct (leb x y) eqn:E.
    + cbn [filter]. destruct (p x) eqn:Px; [|reflexivity].
      symmetry. apply insert_row_head. intros z Hz.
      assert (In z (y :: l)) as Hz'.
      { change (In z (filter p (y :: l))) in Hz.
        apply filter_In in Hz. tauto. }
      destruct Hz' as [<-|Hz']; [exact E|].
      rewrite Forall_forall in F. eauto.
    + cbn [filter]. rewrite IH.
      destruct (p y) eqn:Py, (p x) eqn:Px; try reflexivity.
      cbn [insert_row]. now rewrite E.
Qed.

Lemma filter_sort_values (p : A -> bool) l :
  filter p (sort_values leb l) = sort_values leb (filter p l).
Proof.
  induction l as [|x l IH]; [reflexivity|].
  cbn [sort_values fold_right]. fold (sort_values leb l).
  rewrite filter_insert_row by now apply sort_values_sorted.
  cbn [filter]. rewrite IH. now destruct (p x).
Qed.
End SortFilter.

Section DropDuplicatesFirst.
Context {A : Type} (key : A -> string).

(** A row survives [drop_duplicates] exactly when it is the first row of
    the frame with its key. *)
Lemma drop_duplicates_In_hd x l :
  In x (drop_duplicates key l) <->
  hd_error (filter (fun y => (key y =? key x)%string) l) = Some x.
Proof.
  induction l as [|y l IH]; simpl.
  - split; [tauto|discriminate].
  - rewrite filter_In, negb_true_iff, IH.
    destruct (String.eqb_spec (key y) (key x)) as [E|N]; simpl.
    + rewrite String.eqb_sym.
      destruct (String.eqb_spec (key y) (key x)); [|contradiction].
      split; [intros [->|[_ C]]; [reflexivity|discriminate]|].
      intros H. left. congruence.
    + rewrite String.eqb_sym.
      destruct (String.eqb_spec (key y) (key x)); [contradiction|].
      split; [intros [->|[H _]]; [contradiction|exact H]|]. tauto.
Qed.
End DropDuplicatesFirst.

(** ** The merge of an upsert *)

Section UpsertFacts.
Context {A : Type} (key : A -> string) (recency : A -> option Z).

Local Abbreviation geb := (recency_geb recency).
Local Abbreviation merge := (upsert_merge key recency).
Local Abbreviation with_key x := (fun y => (key y =? key x)%string).

Lemma recency_geb_total x y : geb x y = true \/ geb y x = true.
Proof. apply date_geb_total. Qed.

Lemma recency_geb_trans x y z :
  geb x y = true -> geb y z = true -> geb x z = true.
Proof. apply date_geb_trans. Qed.

(** A row is in the merge exactly when it comes first once the rows
    with its key are sorted by recency. *)
Lemma upsert_merge_In x e n :
  In x (merge e n) <->
  hd_error (sort_values geb (filter (with_key x) (e ++ n))) = Some x.
Proof.
  unfold upsert_merge. rewrite drop_duplicates_In_hd.
  rewrite (filter_sort_values _ recency_geb_total recency_geb_trans).
  reflexivity.
Qed.

Lemma upsert_merge_NoDup e n : NoDup (map key (merge e n)).
Proof. apply drop_duplicates_NoDup. Qed.

Lemma upsert_merge_incl x e n : In x (merge e n) -> In x (e ++ n).
Proof.
  intros H. apply drop_duplicates_incl in H.
  eapply Permutation_in; [apply sort_values_perm|exact H].
Qed.

Lemma upsert_merge_keys k e n :
  In k (map key (merge e n)) <-> In k (map key (e ++ n)).
Proof.
  unfold upsert_merge. rewrite drop_duplicates_keys.
  split; apply Permutation_in; [|symmetry];
    apply Permutation_map, sort_values_perm.
Qed.

(** Latest recency wins: the kept row stands at or before every row of
    the concatenation that has its key. *)
Lemma upsert_merge_latest x y e n :
  In x (merge e n) -> In y (e ++ n) -> key y = key x ->
  geb x y = true.
Proof.
  intros Hx Hy E. apply upsert_merge_In in Hx.
  pose proof (sort_values_sorted _ recency_geb_total recency_geb_trans
                (filter (with_key x) (e ++ n))) as S.
  destruct (sort_values geb (filter (with_key x) (e ++ n)))
    as [|h t] eqn:Es; [discriminate|].
  injection Hx as ->.
  eapply (sorted_head_dominates _ recency_geb_total); [exact S|].
  rewrite <- Es. eapply Permutation_in; [symmetry; apply sort_values_perm|].
  apply filter_In. split; [exact Hy|]. now apply String.eqb_eq.
Qed.


End UpsertFacts.

(** ** The three upserts *)

Section UpsertResults.
Context {A : Type} (key : A -> string) (recency : A -> option Z).

Lemma upsert_merge_latest_per_key e n :
  latest_per_key key recency (e ++ n) (upsert_merge key recency e n).
Proof.
  split; [apply upsert_merge_NoDup|].
  split; [intros k; apply upsert_merge_keys|].
  intros x Hx. split; [now apply (upsert_merge_incl key recency)|].
  intros y Hy E. now apply (upsert_merge_latest key recency x y e n).
Qed.

Lemma latest_per_key_perm combined result result' :
  Permutation result result' ->
  latest_per_key key recency combined result ->
  latest_per_key key recency combined result'.
Proof.
  intros P [ND [K L]]. split; [|split].
  - eapply Permutation_NoDup; [|exact ND]. now apply Permutation_map.
  - intros k. rewrite <- K. split; apply Permutation_in;
      [symmetry|]; now apply Permutation_map.
  - intros x Hx. apply L. eapply Permutation_in; [symmetry|]; eassumption.
Qed.



End UpsertResults.

Lemma fact_loan_date_sort_perm l :
  Permutation (sort_values fact_loan_date_leb l) l.
Proof. apply sort_values_perm. Qed.


Lemma apply_upsert_found {A : Type} (key : A -> string)
    (recency : A -> option Z) files new_data :
  files <> [] ->
  apply_upsert key recency (Files files) new_data =
    upsert_spec key recency (Files files) new_data /\
  latest_per_key key recency (List.concat files ++ new_data)
    (apply_upsert key recency (Files files) new_data).
Proof.
  intros H. destruct files as [|f fs]; [congruence|].
  split; [reflexivity|]. apply upsert_merge_latest_per_key.
Qed.

Lemma dim_loan_newer_row_wins old new t1 t2 :
  dl_loan_id old = dl_loan_id new ->
  dl_updated_date old = Some t1 ->
  dl_updated_date new = Some t2 ->
  (t1 < t2)%Z ->
  apply_dim_loan_upsert (Files [[old]]) [new] = [new].
Proof.
  intros K E1 E2 Hlt.
  unfold apply_dim_loan_upsert, apply_upsert, upsert_merge.
  cbn [List.concat app sort_values fold_right insert_row].
  unfold recency_geb at 1. rewrite E1, E2. cbn [date_geb].
  destruct (Z.leb_spec t2 t1); [lia|].
  cbn [drop_duplicates filter]. rewrite K, String.eqb_refl. reflexivity.
Qed.

(** C5, as stated, fails on two counts: with no persisted file the batch
    comes back as it is, a repeated repayment_id included, and with
    persisted files the fact upsert hands its rows back in (loan_id,
    payment_date) order, not in descending order of payment_date. *)
Lemma upsert_not_always_latest_first :
  (apply_fact_loan_performance_upsert (Files []) [fact_R1_day1; fact_R1_day2]
     <> upsert_spec f_repayment_id f_payment_date (Files [])
          [fact_R1_day1; fact_R1_day2] /\
   ~ NoDup (map f_repayment_id
              (apply_fact_loan_performance_upsert (Files [])
                 [fact_R1_day1; fact_R1_day2]))) /\
  (apply_fact_loan_performance_upsert (Files [[fact_R1_day1]]) [fact_R2_day2]
     = [fact_R1_day1; fact_R2_day2] /\
   upsert_spec f_repayment_id f_payment_date (Files [[fact_R1_day1]])
     [fact_R2_day2] = [fact_R2_day2; fact_R1_day1] /\
   apply_fact_loan_performance_upsert (Files [[fact_R1_day1]]) [fact_R2_day2]
     <> upsert_spec f_repayment_id f_payment_date (Files [[fact_R1_day1]])
          [fact_R2_day2]).
Proof.
  split; [split|split; [|split]].
  - intros H. apply (f_equal (@List.length _)) in H. vm_compute in H.
    discriminate H.
  - intros H. vm_compute in H. inversion H as [|? ? Hn _]. apply Hn.
    now left.
  - vm_compute. reflexivity.
  - vm_compute. reflexivity.
  - intros H.
    apply (f_equal (fun l => map f_repayment_id l)) in H.
    vm_compute in H. discriminate H.
Qed.

(** C5, amended. Whenever at least one persisted file is found and read,
    each dimension upsert returns the concatenation of the existing and the
    new rows, sorted by updated_date descending, with duplicates on the key
    dropped keeping the first; the fact upsert returns the same for
    repayment_id and payment_date, re-sorted ascending by (loan_id,
    payment_date).  In each case the result has exactly one row per key of
    the concatenation, a most recent one.  In particular an existing DimLoan
    row and a new row of the same loan_id with a later updated_date give
    exactly the new row. *)
Theorem upsert_keeps_latest :
  (forall files new_data,
     files <> [] ->
     apply_dim_customer_upsert (Files files) new_data =
       upsert_spec dc_customer_id dc_updated_date (Files files) new_data /\
     latest_per_key dc_customer_id dc_updated_date
       (List.concat files ++ new_data)
       (apply_dim_customer_upsert (Files files) new_data)) /\
  (forall files new_data,
     files <> [] ->
     apply_dim_loan_upsert (Files files) new_data =
       upsert_spec dl_loan_id dl_updated_date (Files files) new_data /\
     latest_per_key dl_loan_id dl_updated_date
       (List.concat files ++ new_data)
       (apply_dim_loan_upsert (Files files) new_data)) /\
  (forall files new_facts,
     files <> [] ->
     apply_fact_loan_performance_upsert (Files files) new_facts =
       sort_values fact_loan_date_leb
         (upsert_spec f_repayment_id f_payment_date (Files files) new_facts) /\
     latest_per_key f_repayment_id f_payment_date
       (List.concat files ++ new_facts)
       (apply_fact_loan_performance_upsert (Files files) new_facts)) /\
  (forall old new t1 t2,
     dl_loan_id old = dl_loan_id new ->
     dl_updated_date old = Some t1 ->
     dl_updated_date new = Some t2 ->
     (t1 < t2)%Z ->
     apply_dim_loan_upsert (Files [[old]]) [new] = [new]).
Proof.
  split; [|split; [|split]].
  - intros files new_data H. now apply apply_upsert_found.
  - intros files new_data H. now apply apply_upsert_found.
  - intros files new_facts H. destruct files as [|f fs]; [congruence|].
    split; [reflexivity|].
    cbn [apply_fact_loan_performance_upsert].
    eapply latest_per_key_perm; [symmetry; apply fact_loan_date_sort_perm|].
    apply upsert_merge_latest_per_key.
  - exact dim_loan_newer_row_wins.
Qed.

Lemma upsert_keeps_latest_witness :
  apply_fact_loan_performance_upsert
    (Files [[fact_R1_day1]]) [fact_R1_day2; fact_R2_day2]
    = [fact_R1_day2; fact_R2_day2] /\
  apply_dim_loan_upsert (Files [[loan_L1_first]]) [loan_L1_later]
    = [loan_L1_later].
Proof.
  destruct upsert_keeps_latest as [_ [_ [F S]]].
  split.
  - assert ([[fact_R1_day1]] <> []) as N by discriminate.
    rewrite (proj1 (F [[fact_R1_day1]] [fact_R1_day2; fact_R2_day2] N)).
    vm_compute. reflexivity.
  - apply (S loan_L1_first loan_L1_later 5%Z 9%Z); [reflexivity..|lia].
Defined.

(** C9. With no persisted file under the output path, and also when the
    read of the persisted files raises, each of the three upserts hands back
    exactly the batch it was given: nothing is sorted and nothing is
    dropped, so a fact batch that repeats a repayment_id keeps both rows. *)
Theorem upsert_first_run_returns_batch :
  (forall new_data,
     apply_dim_customer_upsert (Files []) new_data = new_data /\
     apply_dim_customer_upsert ReadError new_data = new_data) /\
  (forall new_data,
     apply_dim_loan_upsert (Files []) new_data = new_data /\
     apply_dim_loan_upsert ReadError new_data = new_data) /\
  (forall new_facts,
     apply_fact_loan_performance_upsert (Files []) new_facts = new_facts /\
     apply_fact_loan_performance_upsert ReadError new_facts = new_facts) /\
  (apply_fact_loan_performance_upsert (Files []) [fact_R1_day1; fact_R1_day2]
     = [fact_R1_day1; fact_R1_day2] /\
   map f_repayment_id
     (apply_fact_loan_performance_upsert (Files [])
        [fact_R1_day1; fact_R1_day2]) = ["R1"; "R1"]%string /\
   upsert_spec f_repayment_id f_payment_date (Files [])
     [fact_R1_day1; fact_R1_day2] = [fact_R1_day2]).
Proof.
  repeat split.
Qed.




(** ** Region extraction *)

Lemma split_nonempty sep s : split sep s <> [].
Proof.
  destruct s as [|c s]; simpl; [discriminate|].
  destruct (c =? sep)%char; [discriminate|].
  destruct (split sep s); discriminate.
Qed.

Lemma concat_cons2 sep x y ys :
  String.concat sep (x :: y :: ys) =
  (x ++ sep ++ String.concat sep (y :: ys))%string.
Proof. reflexivity. Qed.

(** Joining the tokens with the separator gives the string back. *)
Lemma split_join sep s :
  String.concat (String sep EmptyString) (split sep s) = s.
Proof.
  induction s as [|c s IH]; [reflexivity|]. cbn [split].
  pose proof (split_nonempty sep s) as Hne.
  destruct (split sep s) as [|t ts] eqn:E; [congruence|].
  destruct (Ascii.eqb_spec c sep) as [->|N].
  - rewrite concat_cons2, IH. reflexivity.
  - destruct ts as [|t' ts'].
    + cbn [String.concat] in *. now rewrite IH.
    + rewrite concat_cons2. rewrite concat_cons2 in IH.
      transitivity (String c s); [|reflexivity].
      rewrite <- IH. reflexivity.
Qed.

(** The general rule: with at least two tokens the region is the stripped
    second-to-last token. *)
Lemma extract_region_second_to_last x front tok last :
  split "," x = front ++ [tok; last] ->
  extract_region (Some x) = strip tok.
Proof.
  intros E. unfold extract_region. cbv zeta. rewrite E.
  rewrite length_app. cbn [List.length].
  replace (List.length front + 2 - 2)%nat with (List.length front) by lia.
  destruct (Nat.leb_spec 2 (List.length front + 2)); [|lia].
  rewrite app_nth2 by lia. now rewrite Nat.sub_diag.
Qed.

Lemma extract_region_single_token x tok :
  split "," x = [tok] -> extract_region (Some x) = "Unknown"%string.
Proof. intros E. unfold extract_region. cbv zeta. now rewrite E. Qed.

(** C8 on the code. A missing address and an address without a comma
    give "Unknown"; the documented address shape "street, city, state zip"
    gives the city, here "Springfield", where the claim (and the comment in
    the code, "Extract state as region") expects the state "IL". *)
Theorem region_of_documented_address :
  extract_region None = "Unknown"%string /\
  extract_region (Some "12 Elm St Springfield IL 62701"%string)
    = "Unknown"%string /\
  split "," "12 Elm St, Springfield, IL 62701"
    = ["12 Elm St"; " Springfield"; " IL 62701"]%string /\
  extract_region (Some "12 Elm St, Springfield, IL 62701"%string)
    = "Springfield"%string /\
  extract_region (Some "12 Elm St, Springfield, IL 62701"%string)
    <> "IL"%string.
Proof.
  repeat split; try reflexivity. vm_compute. discriminate.
Qed.

(** ** Portfolio KPIs *)









(* ================================================================== *)
(** * Further properties of the build *)

(** ** Keeping the last row of a key *)

Section DropDuplicatesLast.
Context {A : Type} (key : A -> string).

Lemma drop_duplicates_last_incl x l :
  In x (drop_duplicates_last key l) -> In x l.
Proof.
  unfold drop_duplicates_last. rewrite <- in_rev. intros H.
  apply drop_duplicates_incl in H. now apply in_rev.
Qed.

Lemma drop_duplicates_last_keys k l :
  In k (map key (drop_duplicates_last key l)) <-> In k (map key l).
Proof.
  unfold drop_duplicates_last. rewrite map_rev, <- in_rev.
  rewrite drop_duplicates_keys, map_rev. symmetry. apply in_rev.
Qed.

Lemma drop_duplicates_last_NoDup l :
  NoDup (map key (drop_duplicates_last key l)).
Proof.
  unfold drop_duplicates_last. rewrite map_rev. apply NoDup_rev.
  apply drop_duplicates_NoDup.
Qed.

Lemma drop_duplicates_last_In x l :
  In x (drop_duplicates_last key l) <-> last_with_key key (key x) l = Some x.
Proof.
  unfold drop_duplicates_last, last_with_key. rewrite <- in_rev.
  rewrite drop_duplicates_In_hd, filter_rev. reflexivity.
Qed.

Lemma last_with_key_In k l x :
  last_with_key key k l = Some x -> In x l /\ key x = k.
Proof.
  unfold last_with_key. intros H.
  assert (In x (rev (filter (fun y => (key y =? k)%string) l))) as Hin.
  { destruct (rev _) as [|h t]; [discriminate|]. injection H as ->. now left. }
  rewrite <- in_rev in Hin. apply filter_In in Hin. destruct Hin as [H1 H2].
  apply String.eqb_eq in H2. tauto.
Qed.

Lemma last_with_key_None k l :
  last_with_key key k l = None <-> ~ In k (map key l).
Proof.
  unfold last_with_key. split.
  - intros H C. apply in_map_iff in C. destruct C as [x [E Hx]].
    assert (In x (rev (filter (fun y => (key y =? k)%string) l))) as Hin.
    { rewrite <- in_rev. apply filter_In. split; [exact Hx|].
      now apply String.eqb_eq. }
    destruct (rev _); [destruct Hin|discriminate].
  - intros H. rewrite filter_none; [reflexivity|].
    intros b Hb. apply String.eqb_neq. intros E. apply H.
    rewrite <- E. now apply in_map.
Qed.

(** A lookup in the deduplicated frame finds the last row of the key. *)
Lemma lookup_drop_duplicates_last k l :
  lookup_key key k (drop_duplicates_last key l) = last_with_key key k l.
Proof.
  unfold lookup_key.
  destruct (NoDup_filter_key key k _ (drop_duplicates_last_NoDup l))
    as [E|[x E]]; rewrite E; simpl.
  - symmetry. apply last_with_key_None. intros C.
    apply drop_duplicates_last_keys, in_map_iff in C.
    destruct C as [y [Ky Hy]].
    assert (In y (filter (fun z => (key z =? k)%string)
                         (drop_duplicates_last key l))) as Hin.
    { apply filter_In. split; [exact Hy|]. now apply String.eqb_eq. }
    rewrite E in Hin. destruct Hin.
  - assert (In x (filter (fun z => (key z =? k)%string)
                         (drop_duplicates_last key l))) as Hin
      by (rewrite E; now left).
    apply filter_In in Hin. destruct Hin as [Hx Kx].
    apply String.eqb_eq in Kx. apply drop_duplicates_last_In in Hx.
    now rewrite Kx in Hx.
Qed.
End DropDuplicatesLast.

(** ** Left joins on a right frame without repeated keys *)

Lemma left_join_unique {L R J : Type} (lkey : L -> option string)
    (rkey : R -> string) (mk : L -> option R -> J) left right :
  NoDup (map rkey right) ->
  left_join lkey rkey mk left right =
  map (fun l => mk l match lkey l with
                     | Some k => lookup_key rkey k right
                     | None => None
                     end) left.
Proof.
  intros ND. induction left as [|l left IH]; [reflexivity|].
  change (left_join lkey rkey mk (l :: left) right)
    with (match filter (fun r => match lkey l with
                                 | Some k => (rkey r =? k)%string
                                 | None => false
                                 end) right with
          | [] => [mk l None]
          | ms => map (fun r => mk l (Some r)) ms
          end ++ left_join lkey rkey mk left right).
  rewrite IH. cbn [map]. clear IH.
  destruct (lkey l) as [k|].
  - unfold lookup_key.
    destruct (NoDup_filter_key rkey k right ND) as [E|[x E]];
      rewrite E; reflexivity.
  - rewrite filter_none by reflexivity. reflexivity.
Qed.

(** ** build_dim_loan and build_dim_customer *)

Lemma build_dim_loan_rows now loan_repayments loan_applications :
  build_dim_loan now loan_repayments loan_applications =
  map (fun r => built_loan_row now r
                  (last_with_key la_customer_id (r_customer_id r)
                     (filter is_approved loan_applications)))
      (drop_duplicates_last r_loan_id loan_repayments).
Proof.
  unfold build_dim_loan. cbv zeta.
  rewrite left_join_unique by apply drop_duplicates_last_NoDup.
  apply map_ext. intros r. rewrite lookup_drop_duplicates_last.
  fold is_approved.
  destruct (last_with_key _ _ _); reflexivity.
Qed.

Lemma build_dim_customer_rows now loan_applications credit_bureau :
  build_dim_customer now loan_applications credit_bureau =
  map (fun a => built_customer_row now a
                  (last_with_key cb_customer_id (la_customer_id a)
                     credit_bureau))
      (drop_duplicates_last la_customer_id loan_applications).
Proof.
  unfold build_dim_customer. cbv zeta.
  rewrite left_join_unique by apply drop_duplicates_last_NoDup.
  apply map_ext. intros a. now rewrite lookup_drop_duplicates_last.
Qed.

Lemma built_loan_row_id now r a :
  dl_loan_id (dlb_row (built_loan_row now r a)) = r_loan_id r.
Proof. destruct a; reflexivity. Qed.

Lemma built_loan_row_customer now r a :
  dl_customer_id (dlb_row (built_loan_row now r a)) = r_customer_id r.
Proof. destruct a; reflexivity. Qed.

Lemma build_dim_loan_ids now loan_repayments loan_applications :
  map dl_loan_id (map dlb_row
                    (build_dim_loan now loan_repayments loan_applications)) =
  map r_loan_id (drop_duplicates_last r_loan_id loan_repayments).
Proof.
  rewrite build_dim_loan_rows, !map_map. apply map_ext.
  intros r. apply built_loan_row_id.
Qed.

Lemma build_dim_customer_ids now loan_applications credit_bureau :
  map dc_customer_id (build_dim_customer now loan_applications credit_bureau) =
  map la_customer_id (drop_duplicates_last la_customer_id loan_applications).
Proof.
  rewrite build_dim_customer_rows, map_map. reflexivity.
Qed.

(** X1. [build_dim_loan] returns exactly one row per loan_id that occurs in
    the repayments, and the customer_id of that row is the one on the last
    repayment row of the loan, whatever the applications are. *)
Theorem build_dim_loan_one_row_per_loan :
  forall now loan_repayments loan_applications,
    let dim_loan :=
      map dlb_row (build_dim_loan now loan_repayments loan_applications) in
    NoDup (map dl_loan_id dim_loan) /\
    (forall lid, In lid (map dl_loan_id dim_loan) <->
                 In lid (map r_loan_id loan_repayments)) /\
    (forall d, In d dim_loan ->
       exists r,
         last_with_key r_loan_id (dl_loan_id d) loan_repayments = Some r /\
         dl_customer_id d = r_customer_id r).
Proof.
  intros now reps apps dim_loan. subst dim_loan. split; [|split].
  - rewrite build_dim_loan_ids. apply drop_duplicates_last_NoDup.
  - intros lid. rewrite build_dim_loan_ids.
    apply drop_duplicates_last_keys.
  - intros d Hd. rewrite build_dim_loan_rows, map_map in Hd.
    apply in_map_iff in Hd. destruct Hd as [r [<- Hr]].
    exists r. rewrite built_loan_row_id, built_loan_row_customer.
    split; [|reflexivity]. now apply drop_duplicates_last_In.
Qed.

Lemma build_dim_loan_one_row_per_loan_witness :
  map dl_loan_id
      (map dlb_row
         (build_dim_loan 7 [scenario_payment; next_day_50;
                            repayment_L2_other_customer]
            [application_C1_approved])) = ["L1"; "L2"]%string /\
  exists r,
    last_with_key r_loan_id "L1"
      [scenario_payment; next_day_50; repayment_L2_other_customer] = Some r /\
    r_customer_id r = "C1"%string.
Proof.
  split; [reflexivity|].
  destruct (build_dim_loan_one_row_per_loan 7
              [scenario_payment; next_day_50; repayment_L2_other_customer]
              [application_C1_approved]) as [_ [_ H]].
  destruct (H (mkDimLoan "L1" "C1" (Some 1200) (Some 12) (Some 12)
                 (Some "APPROVED"%string) (Some 7%Z)))
    as [r [E C]]; [now left|].
  exists r. split; [exact E|]. symmetry. exact C.
Defined.

(** X2. A row built by [build_dim_loan] has has_approved_application set
    exactly when some application of its customer is APPROVED; its loan
    characteristics are then those of the last APPROVED application of that
    customer in the order of the silver rows, and otherwise they are all
    missing. *)
Theorem build_dim_loan_match_flag :
  forall now loan_repayments loan_applications b,
    In b (build_dim_loan now loan_repayments loan_applications) ->
    (dlb_has_approved_application b = true <->
     exists a, In a loan_applications /\ is_approved a = true /\
               la_customer_id a = dl_customer_id (dlb_row b)) /\
    (dlb_has_approved_application b = true ->
     exists a,
       last_with_key la_customer_id (dl_customer_id (dlb_row b))
         (filter is_approved loan_applications) = Some a /\
       loan_characteristics b =
         (la_loan_amount a, la_interest_rate a, la_term_months a,
          la_approval_status a, Some (la_application_id a), true)) /\
    (dlb_has_approved_application b = false ->
     loan_characteristics b = (NaN, NaN, NaN, None, None, false)).
Proof.
  intros now reps apps b Hb. rewrite build_dim_loan_rows in Hb.
  apply in_map_iff in Hb. destruct Hb as [r [<- Hr]].
  rewrite built_loan_row_customer.
  destruct (last_with_key la_customer_id (r_customer_id r)
              (filter is_approved apps)) as [a|] eqn:E.
  - pose proof (last_with_key_In _ _ _ _ E) as [Ha Ka].
    apply filter_In in Ha. destruct Ha as [Ha Pa].
    cbn [built_loan_row dlb_has_approved_application]. split; [|split].
    + split; [|reflexivity]. intros _. now exists a.
    + intros _. exists a. split; reflexivity.
    + discriminate.
  - cbn [built_loan_row dlb_has_approved_application]. split; [|split].
    + split; [discriminate|]. intros [a [Ha [Pa Ka]]]. exfalso.
      apply last_with_key_None in E. apply E.
      rewrite <- Ka. apply in_map. apply filter_In. tauto.
    + discriminate.
    + reflexivity.
Qed.

Lemma build_dim_loan_match_flag_witness :
  loan_characteristics
    (built_loan_row 7 scenario_payment (Some application_C1_approved)) =
    (Some 1200, Some 12, Some 12, Some "APPROVED"%string, Some "A2"%string,
     true) /\
  exists a,
    In a [application_C1_approved; application_C1_rejected] /\
    is_approved a = true /\ la_customer_id a = "C1"%string.
Proof.
  split; [reflexivity|].
  apply (proj1 (build_dim_loan_match_flag 7 [scenario_payment]
                  [application_C1_approved; application_C1_rejected]
                  (built_loan_row 7 scenario_payment
                     (Some application_C1_approved))
                  (or_introl eq_refl))).
  reflexivity.
Defined.

(** X3. Two rows built by [build_dim_loan] for the same customer carry the
    same loan characteristics, application_id and match flag, even when they
    stand for different loans: the approved applications are reduced to one
    per customer before the join. *)
Theorem build_dim_loan_one_application_per_customer :
  forall now loan_repayments loan_applications b1 b2,
    In b1 (build_dim_loan now loan_repayments loan_applications) ->
    In b2 (build_dim_loan now loan_repayments loan_applications) ->
    dl_customer_id (dlb_row b1) = dl_customer_id (dlb_row b2) ->
    loan_characteristics b1 = loan_characteristics b2.
Proof.
  intros now reps apps b1 b2 H1 H2. rewrite build_dim_loan_rows in H1, H2.
  apply in_map_iff in H1, H2.
  destruct H1 as [r1 [<- _]], H2 as [r2 [<- _]].
  rewrite !built_loan_row_customer. intros ->.
  destruct (last_with_key _ _ _); reflexivity.
Qed.

Lemma build_dim_loan_one_application_per_customer_witness :
  let reps := [scenario_payment;
               mkRepayment "R7" "L5" "C1" (Some 1%Z) (Some 4%Z) (Some 10)
                           "PAID" (Some 3%Z)] in
  let apps := [application_C1_rejected; application_C1_approved] in
  map (fun b => dl_loan_id (dlb_row b)) (build_dim_loan 7 reps apps)
    = ["L1"; "L5"]%string /\
  forall b1 b2,
    In b1 (build_dim_loan 7 reps apps) ->
    In b2 (build_dim_loan 7 reps apps) ->
    loan_characteristics b1 = loan_characteristics b2.
Proof.
  cbv zeta. split; [reflexivity|]. intros b1 b2 H1 H2.
  apply (build_dim_loan_one_application_per_customer 7 _ _ b1 b2 H1 H2).
  cbn in H1, H2.
  destruct H1 as [<-|[<-|[]]], H2 as [<-|[<-|[]]]; reflexivity.
Defined.

(** X4. [build_dim_customer] returns exactly one row per customer_id of the
    loan applications; its name and address come from the last application
    row of the customer, and its credit_score from the last credit bureau row
    of the customer, missing when the bureau has none. *)
Theorem build_dim_customer_one_row_per_customer :
  forall now loan_applications credit_bureau,
    let dim_customer :=
      build_dim_customer now loan_applications credit_bureau in
    NoDup (map dc_customer_id dim_customer) /\
    (forall cid, In cid (map dc_customer_id dim_customer) <->
                 In cid (map la_customer_id loan_applications)) /\
    (forall c, In c dim_customer ->
       exists a,
         last_with_key la_customer_id (dc_customer_id c) loan_applications
           = Some a /\
         dc_full_name c = la_full_name a /\
         dc_address c = la_address a /\
         dc_credit_score c =
           match last_with_key cb_customer_id (dc_customer_id c)
                   credit_bureau with
           | Some s => cb_credit_score s
           | None => NaN
           end).
Proof.
  intros now apps bureau dim_customer. subst dim_customer. split; [|split].
  - rewrite build_dim_customer_ids. apply drop_duplicates_last_NoDup.
  - intros cid. rewrite build_dim_customer_ids.
    apply drop_duplicates_last_keys.
  - intros c Hc. rewrite build_dim_customer_rows in Hc.
    apply in_map_iff in Hc. destruct Hc as [a [<- Ha]].
    exists a. cbn [built_customer_row dc_customer_id dc_full_name dc_address
                   dc_credit_score].
    split; [now apply drop_duplicates_last_In|]. repeat split.
Qed.

Lemma build_dim_customer_one_row_per_customer_witness :
  build_dim_customer 7 [application_C1_rejected; application_C1_approved]
    [mkCreditBureau "C1" (Some 640); mkCreditBureau "C1" (Some 700)] =
  [mkDimCustomer "C1" (Some "Ann Lee"%string)
     (Some "1 Main St, Troy, NY 12180"%string) (Some 700) (Some 7%Z)] /\
  exists a,
    last_with_key la_customer_id "C1"
      [application_C1_rejected; application_C1_approved] = Some a /\
    la_application_id a = "A2"%string.
Proof.
  split; [reflexivity|].
  destruct (build_dim_customer_one_row_per_customer 7
              [application_C1_rejected; application_C1_approved]
              [mkCreditBureau "C1" (Some 640); mkCreditBureau "C1" (Some 700)])
    as [_ [_ H]].
  destruct (H (mkDimCustomer "C1" (Some "Ann Lee"%string)
                 (Some "1 Main St, Troy, NY 12180"%string) (Some 700)
                 (Some 7%Z)) (or_introl eq_refl)) as [a [E _]].
  exists a. split; [exact E|].
  cbn in E. injection E as <-. reflexivity.
Defined.

(** ** The builders followed by the upserts *)

Lemma apply_upsert_NoDup {A : Type} (key : A -> string)
    (recency : A -> option Z) store new_data :
  NoDup (map key new_data) ->
  NoDup (map key (apply_upsert key recency store new_data)).
Proof.
  intros ND. destruct store as [|[|f fs]]; cbn [apply_upsert];
    try exact ND. apply upsert_merge_NoDup.
Qed.

Lemma build_dim_loan_one_row_per_loan_aux now reps apps :
  NoDup (map dl_loan_id (map dlb_row (build_dim_loan now reps apps))) /\
  forall lid, In lid (map r_loan_id reps) ->
              In lid (map dl_loan_id (map dlb_row (build_dim_loan now reps apps))).
Proof.
  rewrite build_dim_loan_ids.
  split; [apply drop_duplicates_last_NoDup|].
  intros lid. apply drop_duplicates_last_keys.
Qed.

Lemma build_dim_customer_keys_aux now apps bureau :
  NoDup (map dc_customer_id (build_dim_customer now apps bureau)) /\
  forall cid, In cid (map la_customer_id apps) ->
              In cid (map dc_customer_id (build_dim_customer now apps bureau)).
Proof.
  rewrite build_dim_customer_ids.
  split; [apply drop_duplicates_last_NoDup|].
  intros cid. apply drop_duplicates_last_keys.
Qed.

Lemma apply_upsert_keeps_new_keys {A : Type} (key : A -> string)
    (recency : A -> option Z) store new_data k :
  In k (map key new_data) ->
  In k (map key (apply_upsert key recency store new_data)).
Proof.
  intros H. destruct store as [|[|f fs]]; cbn [apply_upsert];
    try exact H.
  apply upsert_merge_keys. rewrite map_app. apply in_or_app. now right.
Qed.

(** X5. Whatever is persisted, and also on a first run or when the read of
    the persisted files fails, the DimLoan and DimCustomer tables that [main]
    obtains by building and then upserting hold every key at most once, and
    every key of the new build is in them. *)
Theorem built_dimensions_have_unique_keys :
  forall now loan_repayments loan_applications credit_bureau
         loan_store customer_store,
    let dim_loan :=
      apply_dim_loan_upsert loan_store
        (map dlb_row (build_dim_loan now loan_repayments loan_applications)) in
    let dim_customer :=
      apply_dim_customer_upsert customer_store
        (build_dim_customer now loan_applications credit_bureau) in
    NoDup (map dl_loan_id dim_loan) /\
    NoDup (map dc_customer_id dim_customer) /\
    (forall r, In r loan_repayments ->
               In (r_loan_id r) (map dl_loan_id dim_loan)) /\
    (forall a, In a loan_applications ->
               In (la_customer_id a) (map dc_customer_id dim_customer)).
Proof.
  intros now reps apps bureau loan_store customer_store dim_loan dim_customer.
  subst dim_loan dim_customer.
  pose proof (build_dim_loan_one_row_per_loan_aux now reps apps) as [NL KL].
  pose proof (build_dim_customer_keys_aux now apps bureau) as [NC KC].
  split; [now apply apply_upsert_NoDup|].
  split; [now apply apply_upsert_NoDup|]. split.
  - intros r Hr. apply apply_upsert_keeps_new_keys. apply KL.
    now apply in_map.
  - intros a Ha. apply apply_upsert_keeps_new_keys. apply KC.
    now apply in_map.
Qed.

Lemma built_dimensions_have_unique_keys_witness :
  In "L1"%string
     (map dl_loan_id
        (apply_dim_loan_upsert (Files [[loan_L1_first]])
           (map dlb_row
              (build_dim_loan 7 [scenario_payment]
                 [application_C1_approved])))) /\
  In "C1"%string
     (map dc_customer_id
        (apply_dim_customer_upsert ReadError
           (build_dim_customer 7 [application_C1_approved] []))).
Proof.
  destruct (built_dimensions_have_unique_keys 7 [scenario_payment]
              [application_C1_approved] [] (Files [[loan_L1_first]])
              ReadError) as [_ [_ [HL HC]]].
  split.
  - apply (HL scenario_payment). now left.
  - apply (HC application_C1_approved). now left.
Defined.

(** ** build_fact_loan_performance *)

Lemma StronglySorted_map {A B : Type} (R : B -> B -> Prop) (f : A -> B) l :
  StronglySorted (fun x y => R (f x) (f y)) l <-> StronglySorted R (map f l).
Proof.
  induction l as [|x l IH]; simpl.
  - split; constructor.
  - split; intros H; inversion H as [|? ? S F]; subst; constructor.
    + now apply IH.
    + rewrite Forall_forall in *. intros y Hy.
      apply in_map_iff in Hy. destruct Hy as [z [<- Hz]]. auto.
    + now apply IH.
    + rewrite Forall_forall in *. intros y Hy. apply F. now apply in_map.
Qed.

Lemma merge_loan_one dim_loan r :
  NoDup (map dl_loan_id dim_loan) ->
  map a_rep (merge_loan dim_loan r) = [r].
Proof.
  intros ND. unfold merge_loan.
  destruct (NoDup_filter_key dl_loan_id (r_loan_id r) dim_loan ND)
    as [->|[d ->]]; reflexivity.
Qed.

Lemma merge_left_one_per_repayment df dim_loan :
  NoDup (map dl_loan_id dim_loan) ->
  map a_rep (merge_left df dim_loan) = df.
Proof.
  intros ND. unfold merge_left. induction df as [|r df IH]; [reflexivity|].
  cbn [flat_map]. rewrite map_app, IH, merge_loan_one by exact ND.
  reflexivity.
Qed.

Lemma merge_loan_nonempty dim_loan r : In r (map a_rep (merge_loan dim_loan r)).
Proof.
  unfold merge_loan.
  destruct (filter _ dim_loan) as [|d ms]; simpl; now left.
Qed.

Lemma merge_left_same_repayments df dim_loan r :
  In r (map a_rep (merge_left df dim_loan)) <-> In r df.
Proof.
  unfold merge_left. split.
  - intros H. apply in_map_iff in H. destruct H as [a [<- Ha]].
    apply in_flat_map in Ha. destruct Ha as [p [Hp Ha]].
    now rewrite (merge_loan_rep _ _ _ Ha).
  - intros H. pose proof (merge_loan_nonempty dim_loan r) as Hn.
    apply in_map_iff in Hn. destruct Hn as [a [E Ha]].
    apply in_map_iff. exists a. split; [exact E|].
    apply in_flat_map. now exists r.
Qed.

Lemma map_a_rep_inputs f f' :
  map row_inputs f' = map row_inputs f -> map a_rep f' = map a_rep f.
Proof.
  intros H.
  assert (forall l, map a_rep l =
                    map (fun t => fst (fst (fst t))) (map row_inputs l)) as M.
  { intros l. rewrite map_map. reflexivity. }
  now rewrite !M, H.
Qed.

(** The fact builder in one statement, shared below. *)
Lemma build_fact_loan_performance_spec now loan_repayments dim_loan :
  exists facts,
    build_fact_loan_performance now loan_repayments dim_loan = Some facts /\
    StronglySorted (fun x y => fact_loan_date_leb x y = true) facts /\
    (forall r, In r (map f_rep facts) <-> In r loan_repayments) /\
    (NoDup (map dl_loan_id dim_loan) ->
     Permutation (map f_rep facts) loan_repayments).
Proof.
  rename loan_repayments into reps, dim_loan into dim.
  unfold build_fact_loan_performance.
  destruct (calculate_amortization_spec reps dim) as [out [E [I _]]].
  rewrite E. eexists. split; [reflexivity|].
  apply map_a_rep_inputs in I.
  assert (map f_rep
            (map (fun a => mkFact (a_rep a) (a_principal_paid a)
                             (a_interest_paid a) (a_outstanding_balance a)
                             (r_status (a_rep a) =? "MISSED")%string
                             (Some now)) out) =
          map a_rep (sort_values loan_date_leb (merge_left reps dim))) as M.
  { rewrite map_map. cbn [f_rep]. exact I. }
  split; [|split].
  - apply (StronglySorted_map
             (fun x y => repayment_leb x y = true) f_rep).
    rewrite M.
    apply (StronglySorted_map
             (fun x y => repayment_leb x y = true) a_rep).
    apply (sort_values_sorted loan_date_leb loan_date_leb_total
             loan_date_leb_trans).
  - intros r. rewrite M. rewrite <- (merge_left_same_repayments reps dim r).
    split; apply Permutation_in; [|symmetry];
      apply Permutation_map, sort_values_perm.
  - intros ND. rewrite M.
    rewrite <- (merge_left_one_per_repayment reps dim ND) at 2.
    apply Permutation_map, sort_values_perm.
Qed.

(** X6. [build_fact_loan_performance] always returns.  Its rows stand in
    (loan_id, payment_date) order and carry exactly the repayments of the
    input; when dim_loan holds no loan_id twice there is exactly one fact row
    per repayment row. *)
Theorem build_fact_one_row_per_repayment :
  forall now loan_repayments dim_loan,
  exists facts,
    build_fact_loan_performance now loan_repayments dim_loan = Some facts /\
    StronglySorted (fun x y => fact_loan_date_leb x y = true) facts /\
    (forall r, In r (map f_rep facts) <-> In r loan_repayments) /\
    (NoDup (map dl_loan_id dim_loan) ->
     Permutation (map f_rep facts) loan_repayments).
Proof.
  intros now loan_repayments dim_loan.
  apply build_fact_loan_performance_spec.
Qed.

Lemma build_fact_one_row_per_repayment_witness :
  exists facts,
    build_fact_loan_performance 7 [next_day_50; scenario_payment]
      [scenario_loan] = Some facts /\
    Permutation (map f_rep facts) [next_day_50; scenario_payment].
Proof.
  destruct (build_fact_one_row_per_repayment 7
              [next_day_50; scenario_payment] [scenario_loan])
    as [facts [E [_ [_ P]]]].
  exists facts. split; [exact E|]. apply P.
  repeat constructor. simpl. tauto.
Defined.

(** ** The run up to the fact table *)

Lemma get_latest_transformed_data_some {A : Type} (files : list (list A)) :
  files <> [] -> get_latest_transformed_data files = Some (List.concat files).
Proof. destruct files; [congruence|reflexivity]. Qed.

Lemma built_dimensions_have_unique_keys_aux now reps apps bureau
    loan_store customer_store :
  NoDup (map dl_loan_id
           (apply_dim_loan_upsert loan_store
              (map dlb_row (build_dim_loan now reps apps)))) /\
  NoDup (map dc_customer_id
           (apply_dim_customer_upsert customer_store
              (build_dim_customer now apps bureau))) /\
  forall r, In r reps ->
    In (r_loan_id r)
       (map dl_loan_id
          (apply_dim_loan_upsert loan_store
             (map dlb_row (build_dim_loan now reps apps)))).
Proof.
  pose proof (build_dim_loan_one_row_per_loan_aux now reps apps) as [NL KL].
  pose proof (build_dim_customer_keys_aux now apps bureau) as [NC KC].
  split; [now apply apply_upsert_NoDup|].
  split; [now apply apply_upsert_NoDup|].
  intros r Hr. apply apply_upsert_keeps_new_keys. apply KL. now apply in_map.
Qed.

(** X7. Steps 1 to 3 of [main] fail exactly when one of the three silver
    datasets has no file.  Otherwise, whatever the three persisted tables
    hold, the DimCustomer and DimLoan that come out hold no key twice,
    DimLoan has a row for the loan of every repayment, the fact table holds
    no repayment_id twice once a persisted fact file exists, and on a first
    run it holds exactly one row per silver repayment row. *)
Theorem main_tables_result :
  forall now applications_silver repayments_silver bureau_silver
         customer_store loan_store fact_store,
    (main_tables now applications_silver repayments_silver bureau_silver
       customer_store loan_store fact_store = None <->
     applications_silver = [] \/ repayments_silver = [] \/
     bureau_silver = []) /\
    forall t,
      main_tables now applications_silver repayments_silver bureau_silver
        customer_store loan_store fact_store = Some t ->
      NoDup (map dc_customer_id (gt_dim_customer t)) /\
      NoDup (map dl_loan_id (gt_dim_loan t)) /\
      (forall r, In r (List.concat repayments_silver) ->
                 In (r_loan_id r) (map dl_loan_id (gt_dim_loan t))) /\
      (has_files fact_store ->
       NoDup (map f_repayment_id (gt_fact_loan_performance t))) /\
      (~ has_files fact_store ->
       Permutation (map f_rep (gt_fact_loan_performance t))
                   (List.concat repayments_silver)).
Proof.
  intros now apps_s reps_s bureau_s customer_store loan_store fact_store.
  unfold main_tables.
  destruct apps_s as [|af afs];
    [split; [split; [auto|reflexivity]|discriminate]|].
  destruct reps_s as [|rf rfs];
    [split; [split; [auto|reflexivity]|discriminate]|].
  destruct bureau_s as [|bf bfs];
    [split; [split; [auto|reflexivity]|discriminate]|].
  cbn [get_latest_transformed_data]. cbv zeta.
  set (apps := List.concat (af :: afs)).
  set (reps := List.concat (rf :: rfs)).
  set (bureau := List.concat (bf :: bfs)).
  destruct (built_dimensions_have_unique_keys_aux now reps apps bureau
              loan_store customer_store) as [NL [NC KL]].
  destruct (build_fact_loan_performance_spec now reps
              (apply_dim_loan_upsert loan_store
                 (map dlb_row (build_dim_loan now reps apps))))
    as [facts [E [_ [_ P]]]].
  rewrite E. split.
  - split; [discriminate|]. intros [H|[H|H]]; discriminate H.
  - intros t Ht. injection Ht as <-.
    cbn [gt_dim_customer gt_dim_loan gt_fact_loan_performance].
    split; [exact NC|]. split; [exact NL|]. split; [exact KL|]. split.
    + intros HF. destruct fact_store as [|[|f fs]]; try destruct HF.
      cbn [apply_fact_loan_performance_upsert].
      eapply Permutation_NoDup;
        [symmetry; apply Permutation_map, fact_loan_date_sort_perm|].
      apply upsert_merge_NoDup.
    + intros HF. destruct fact_store as [|[|f fs]];
        cbn [apply_fact_loan_performance_upsert];
        try (now apply P). elim HF. exact I.
Qed.

Lemma main_tables_result_witness :
  exists t,
    main_tables 7 [[application_C1_approved]]
      [[scenario_payment]; [next_day_50]] [[]]
      ReadError (Files []) (Files [[fact_R1_day1]]) = Some t /\
    NoDup (map f_repayment_id (gt_fact_loan_performance t)) /\
    NoDup (map dl_loan_id (gt_dim_loan t)).
Proof.
  destruct (main_tables 7 [[application_C1_approved]]
              [[scenario_payment]; [next_day_50]] [[]]
              ReadError (Files []) (Files [[fact_R1_day1]])) as [t|] eqn:E.
  - exists t. split; [reflexivity|].
    destruct (proj2 (main_tables_result 7 [[application_C1_approved]]
                       [[scenario_payment]; [next_day_50]] [[]]
                       ReadError (Files []) (Files [[fact_R1_day1]])) t E)
      as [_ [NL [_ [NF _]]]].
    split; [exact (NF I)|exact NL].
  - exfalso.
    apply (proj1 (main_tables_result 7 [[application_C1_approved]]
                    [[scenario_payment]; [next_day_50]] [[]]
                    ReadError (Files []) (Files [[fact_R1_day1]]))) in E.
    destruct E as [E|[E|E]]; discriminate E.
Defined.

(** ** More on the amortization engine *)

Lemma app_eq_length {A : Type} (l1 l1' l2 l2' : list A) :
  List.length l1 = List.length l1' -> l1 ++ l2 = l1' ++ l2' ->
  l1 = l1' /\ l2 = l2'.
Proof.
  revert l1'. induction l1 as [|x l1 IH]; intros [|y l1'] L E;
    try discriminate L.
  - now split.
  - injection E as -> E. injection L as L.
    destruct (IH l1' L E) as [-> ->]. now split.
Qed.

Lemma step_balance_zero rate b amt :
  b <= 0 ->
  pymax (Some 0) (nsub (Some b) (nsub amt (pymin amt (nmul (Some b) rate))))
  = Some 0.
Proof.
  intros Hb. destruct rate as [r|], amt as [a|];
    unfold pymax, pymin, nltb; simpl; qcases; simpl; qcases; simpl;
    try reflexivity; exfalso; lra.
Qed.

Lemma fold_zero_stays rate : forall pays b,
  b <= 0 ->
  Forall (fun o => balance_of o = Some 0)
         (amortization_fold rate (Some b) pays).
Proof.
  induction pays as [|a pays IH]; intros b Hb; [constructor|].
  cbn [amortization_fold]. rewrite (step_balance_zero rate b a Hb).
  constructor; [reflexivity|]. apply IH. lra.
Qed.

Lemma fold_after_missing_amount rate : forall pre bal post,
  exists o1 o2,
    amortization_fold rate bal (pre ++ None :: post) = o1 ++ o2 /\
    List.length o1 = List.length pre /\
    Forall (fun o => balance_of o = Some 0) o2.
Proof.
  induction pre as [|a pre IH]; intros bal post.
  - exists [], (amortization_fold rate bal (None :: post)).
    split; [reflexivity|]. split; [reflexivity|].
    cbn [app amortization_fold].
    assert (pymax (Some 0)
              (nsub bal (nsub None (pymin None (nmul bal rate)))) = Some 0)
      as ->.
    { destruct bal; reflexivity. }
    constructor; [reflexivity|]. apply fold_zero_stays. lra.
  - cbn [app amortization_fold].
    match goal with
    | |- context [amortization_fold rate ?b (pre ++ None :: post)] =>
        destruct (IH b post) as [o1 [o2 [E [L F]]]]
    end.
    rewrite E. eexists (_ :: o1), o2. split; [reflexivity|].
    split; [simpl; now rewrite L|exact F].
Qed.

Lemma fallback_all_zero pays :
  Forall (fun o => balance_of o = Some 0) (fallback_outputs pays).
Proof.
  unfold fallback_outputs. induction pays; simpl; constructor; auto.
Qed.

Lemma loan_result_after_missing_amount rows pre post :
  map a_amount_paid rows = pre ++ None :: post ->
  exists o1 o2,
    loan_result rows = o1 ++ o2 /\
    List.length o1 = List.length pre /\
    Forall (fun o => balance_of o = Some 0) o2.
Proof.
  intros E. unfold loan_result. destruct rows as [|first rest].
  - destruct pre; discriminate E.
  - destruct (isna (a_loan_amount first) || isna (a_interest_rate first)).
    + rewrite E. unfold fallback_outputs. rewrite map_app.
      eexists _, _. split; [reflexivity|]. split; [apply length_map|].
      apply (fallback_all_zero (None :: post)).
    + rewrite E. apply fold_after_missing_amount.
Qed.

(** X8. A repayment whose amount_paid is missing wipes the balance of its
    loan: on that row and on every later row of the loan the
    outstanding_balance written by [calculate_amortization] is 0. *)
Theorem missing_amount_zeroes_the_balance :
  forall df dim_loan,
  exists out,
    calculate_amortization df dim_loan = Some out /\
    forall lid before r after,
      loan_rows lid out = before ++ r :: after ->
      a_amount_paid r = NaN ->
      Forall (fun x => a_outstanding_balance x = Some 0) (r :: after).
Proof.
  intros df dim_loan.
  destruct (calculate_amortization_spec df dim_loan) as [out [E [I O]]].
  exists out. split; [exact E|]. intros lid before r after Hrows Hnan.
  pose proof (map_amount_inputs _ _ (loan_rows_inputs lid _ _ I)) as A.
  rewrite Hrows, map_app in A. cbn [map] in A. rewrite Hnan in A.
  destruct (loan_result_after_missing_amount _ _ _ (eq_sym A))
    as [o1 [o2 [R [L F]]]].
  specialize (O lid). rewrite R, Hrows, map_app in O.
  apply app_eq_length in O; [|now rewrite L, !length_map].
  destruct O as [_ O]. rewrite <- O in F.
  apply Forall_map in F. exact F.
Qed.

Lemma missing_amount_zeroes_the_balance_witness :
  exists out,
    calculate_amortization
      [mkRepayment "R0" "L1" "C1" (Some 1%Z) (Some 0%Z) NaN "MISSED" None;
       scenario_payment] [scenario_loan] = Some out /\
    map a_outstanding_balance out = [Some 0; Some 0].
Proof.
  destruct (missing_amount_zeroes_the_balance
      [mkRepayment "R0" "L1" "C1" (Some 1%Z) (Some 0%Z) NaN "MISSED" None;
       scenario_payment] [scenario_loan]) as [out [E H]].
  exists out. split; [exact E|].
  assert (exists r1 r2, out = [r1; r2] /\ a_amount_paid r1 = NaN /\
                        loan_rows "L1" out = [] ++ r1 :: [r2])
    as [r1 [r2 [-> [N L]]]].
  { vm_compute in E. injection E as <-. do 2 eexists.
    split; [reflexivity|]. split; reflexivity. }
  specialize (H "L1"%string [] r1 [r2] L N).
  inversion H as [|? ? H1 H']; subst. inversion H' as [|? ? H2 _]; subst.
  cbn [map]. now rewrite H1, H2.
Defined.

Lemma fold_split_bounds rate : forall pays bal,
  Forall2 (fun amt o =>
             forall a, amt = Some a ->
               exists p i, snd (fst o) = Some p /\ fst (fst o) = Some i /\
                           0 <= p /\ i <= a)
          pays (amortization_fold rate bal pays).
Proof.
  induction pays as [|amt pays IH]; intros bal; cbn [amortization_fold];
    constructor; [|apply IH].
  intros a ->. cbn [fst snd].
  destruct (nmul bal rate) as [x|]; unfold pymin, nltb; simpl; qcases;
    simpl; do 2 eexists; (split; [reflexivity|]); (split; [reflexivity|]);
    split; lra.
Qed.

Lemma fold_split_nonneg r : forall pays b,
  0 <= r -> 0 <= b ->
  Forall2 (fun amt o =>
             forall a, amt = Some a -> 0 <= a ->
               exists p i, snd (fst o) = Some p /\ fst (fst o) = Some i /\
                           0 <= i /\ p <= a)
          pays (amortization_fold (Some r) (Some b) pays).
Proof.
  induction pays as [|amt pays IH]; intros b Hr Hb; cbn [amortization_fold];
    constructor.
  - intros a -> Ha. cbn [fst snd].
    pose proof (Qmult_le_0_compat b r Hb Hr) as Hi.
    unfold pymin, nltb; simpl; qcases; simpl;
      do 2 eexists; (split; [reflexivity|]); (split; [reflexivity|]);
      split; lra.
  - destruct (step_balance (Some r) (Some b) amt) as [q [E [Hq _]]].
    rewrite E. now apply IH.
Qed.

Lemma fold_path_outputs out fact lid first rest la ir :
  map row_inputs out = map row_inputs fact ->
  map row_outputs (loan_rows lid out) = loan_result (loan_rows lid fact) ->
  loan_rows lid out = first :: rest ->
  a_loan_amount first = Some la ->
  a_interest_rate first = Some ir ->
  map row_outputs (first :: rest) =
  amortization_fold (Some (ir / 100 / 12)) (Some la)
    (map a_amount_paid (first :: rest)).
Proof.
  intros I O Hrows Hla Hir.
  pose proof (loan_rows_inputs lid _ _ I) as Il.
  pose proof (map_amount_inputs _ _ Il) as A.
  rewrite Hrows in O, Il, A. rewrite O, A.
  destruct (loan_rows lid fact) as [|f0 rest0]; [discriminate Il|].
  pose proof (f_equal (hd (row_inputs first)) Il) as H0. cbn [map hd] in H0.
  unfold row_inputs in H0. unfold loan_result.
  replace (a_loan_amount f0) with (Some la) by congruence.
  replace (a_interest_rate f0) with (Some ir) by congruence.
  reflexivity.
Qed.

(** X9. On the rows of a loan that has its loan data, a finite payment is
    never split into a negative principal, and the interest part never
    exceeds the payment; when moreover loan_amount, interest_rate and the
    payment are not negative, the interest part is not negative and the
    principal part does not exceed the payment. *)
Theorem payment_split_bounds :
  forall df dim_loan,
  exists out,
    calculate_amortization df dim_loan = Some out /\
    forall lid first rest la ir,
      loan_rows lid out = first :: rest ->
      a_loan_amount first = Some la ->
      a_interest_rate first = Some ir ->
      Forall (fun r =>
                forall a, a_amount_paid r = Some a ->
                  exists p i,
                    a_principal_paid r = Some p /\
                    a_interest_paid r = Some i /\
                    0 <= p /\ i <= a /\
                    (0 <= la -> 0 <= ir -> 0 <= a -> 0 <= i /\ p <= a))
             (first :: rest).
Proof.
  intros df dim_loan.
  destruct (calculate_amortization_spec df dim_loan) as [out [E [I O]]].
  exists out. split; [exact E|]. intros lid first rest la ir Hrows Hla Hir.
  pose proof (fold_path_outputs _ _ lid first rest la ir I (O lid)
                Hrows Hla Hir) as F.
  pose proof (fold_split_bounds (Some (ir / 100 / 12))
                (map a_amount_paid (first :: rest)) (Some la)) as B.
  rewrite <- F in B. apply Forall2_map_same in B.
  assert (0 <= la -> 0 <= ir ->
          Forall (fun r => forall a, a_amount_paid r = Some a -> 0 <= a ->
                    exists p i, a_principal_paid r = Some p /\
                                a_interest_paid r = Some i /\
                                0 <= i /\ p <= a) (first :: rest)) as N.
  { intros H1 H2.
    assert (0 <= ir / 100 / 12) as Hr.
    { unfold Qdiv. repeat apply Qmult_le_0_compat; try exact H2;
        vm_compute; discriminate. }
    pose proof (fold_split_nonneg (ir / 100 / 12)
                  (map a_amount_paid (first :: rest)) la Hr H1) as B'.
    rewrite <- F in B'. apply Forall2_map_same in B'. exact B'. }
  rewrite Forall_forall in *. intros r Hr a Ha.
  destruct (B r Hr a Ha) as [p [i [Hp [Hi [P1 P2]]]]].
  exists p, i. repeat (split; [assumption|]).
  intros H1 H2 H3.
  destruct (N H1 H2 r Hr a Ha H3) as [p' [i' [Hp' [Hi' Hb]]]].
  unfold row_outputs in *. cbn [fst snd] in *.
  replace p with p' by congruence. replace i with i' by congruence.
  exact Hb.
Qed.

Lemma payment_split_bounds_witness :
  exists out p i,
    calculate_amortization [scenario_payment] [scenario_loan] = Some out /\
    map a_principal_paid out = [Some p] /\
    map a_interest_paid out = [Some i] /\
    0 <= i /\ p <= 100.
Proof.
  destruct (payment_split_bounds [scenario_payment] [scenario_loan])
    as [out [E H]].
  assert (exists r, out = [r] /\ loan_rows "L1" out = [r] /\
                    a_loan_amount r = Some 1200 /\
                    a_interest_rate r = Some 12 /\
                    a_amount_paid r = Some 100)
    as [r [-> [L [Hla [Hir Ha]]]]].
  { vm_compute in E. injection E as <-. eexists. repeat split. }
  specialize (H "L1"%string r [] 1200 12 L Hla Hir).
  inversion H as [|? ? Hr _]; subst.
  destruct (Hr 100 Ha) as [p [i [Hp [Hi [_ [_ Hb]]]]]].
  exists [r], p, i. split; [exact E|]. cbn [map]. rewrite Hp, Hi.
  split; [reflexivity|]. split; [reflexivity|].
  apply Hb; lra.
Defined.

Lemma rows_equal_by_columns : forall l l' : list AmortRow,
  map row_inputs l = map row_inputs l' ->
  map row_outputs l = map row_outputs l' ->
  l = l'.
Proof.
  induction l as [|r l IH]; intros [|r' l'] HI HO; try discriminate;
    [reflexivity|].
  cbn [map] in HI, HO. injection HI as I1 I2 I3 I4 HI.
  injection HO as O1 O2 O3 HO.
  f_equal; [|now apply IH].
  destruct r, r'. cbn in *. congruence.
Qed.

Lemma loan_rows_all lid l :
  Forall (fun r => a_loan_id r = lid) l -> loan_rows lid l = l.
Proof.
  intros F. apply filter_all. rewrite Forall_forall in F.
  intros b Hb. apply String.eqb_eq. auto.
Qed.

Lemma loan_rows_sorted_merge lid df dim_loan :
  loan_rows lid (sort_values loan_date_leb (merge_left df dim_loan)) =
  sort_values loan_date_leb
    (merge_left (filter (fun r => (r_loan_id r =? lid)%string) df) dim_loan).
Proof.
  unfold loan_rows.
  rewrite (filter_sort_values _ loan_date_leb_total loan_date_leb_trans).
  f_equal. unfold merge_left. apply filter_flat_map.
  intros r a Ha. unfold a_loan_id. now rewrite (merge_loan_rep _ _ _ Ha).
Qed.

(** X10. No state passes from one loan to another: the rows that
    [calculate_amortization] returns for a loan are exactly the rows that it
    returns when it is given the repayments of that loan alone. *)
Theorem amortization_is_per_loan :
  forall df dim_loan lid,
  exists out alone,
    calculate_amortization df dim_loan = Some out /\
    calculate_amortization
      (filter (fun r => (r_loan_id r =? lid)%string) df) dim_loan
      = Some alone /\
    loan_rows lid out = alone.
Proof.
  intros df dim_loan lid.
  destruct (calculate_amortization_spec df dim_loan) as [out [E [I O]]].
  destruct (calculate_amortization_spec
              (filter (fun r => (r_loan_id r =? lid)%string) df) dim_loan)
    as [alone [E' [I' O']]].
  exists out, alone. split; [exact E|]. split; [exact E'|].
  pose proof (loan_rows_inputs lid _ _ I) as Il.
  rewrite loan_rows_sorted_merge in Il.
  specialize (O lid). rewrite loan_rows_sorted_merge in O.
  set (fact' := sort_values loan_date_leb
                  (merge_left (filter (fun r => (r_loan_id r =? lid)%string) df)
                     dim_loan)) in *.
  assert (loan_rows lid fact' = fact') as Hf.
  { unfold fact'. rewrite <- loan_rows_sorted_merge.
    unfold loan_rows. apply filter_all. intros b Hb.
    apply filter_In in Hb. tauto. }
  assert (loan_rows lid alone = alone) as Ha.
  { apply loan_rows_all.
    assert (map a_loan_id alone = map a_loan_id fact') as M
      by now apply map_a_loan_id_inputs.
    assert (Forall (fun k => k = lid) (map a_loan_id fact')) as F.
    { apply Forall_map. rewrite <- Hf. apply Forall_forall.
      intros r Hr. apply filter_In in Hr. now apply String.eqb_eq. }
    rewrite <- M in F. now apply Forall_map in F. }
  specialize (O' lid). rewrite Ha, Hf in O'.
  apply rows_equal_by_columns; congruence.
Qed.

(** ** Bounds on the portfolio KPIs *)

Lemma ratio_pct_bounds (n t : Q) :
  0 <= n -> n <= t -> 0 < t -> 0 <= n / t * 100 /\ n / t * 100 <= 100.
Proof.
  intros Hn Hnt Ht.
  assert (0 <= n / t) as H0.
  { apply Qle_shift_div_l; [exact Ht|]. lra. }
  assert (n / t <= 1) as H1.
  { apply Qle_shift_div_r; [exact Ht|]. lra. }
  split; lra.
Qed.



Lemma sum_valid_from (l : list num) : forall a,
  fold_left (fun acc x => match x with
                          | Some q => acc + q
                          | None => acc
                          end) l a == a + sum_valid l.
Proof.
  unfold sum_valid. induction l as [|x l IH]; intros a; cbn [fold_left].
  - ring.
  - rewrite IH. rewrite (IH (match x with Some q => 0 + q | None => 0 end)).
    destruct x; ring.
Qed.

Lemma sum_valid_cons x l :
  sum_valid (x :: l) ==
  match x with Some q => q | None => 0 end + sum_valid l.
Proof.
  unfold sum_valid at 1. cbn [fold_left]. rewrite sum_valid_from.
  destruct x; ring.
Qed.

Lemma sum_valid_nonneg l : Forall nonneg_cell l -> 0 <= sum_valid l.
Proof.
  induction 1 as [|x l Hx F IH]; [unfold sum_valid; simpl; lra|].
  rewrite sum_valid_cons. destruct x as [q|]; [|lra].
  specialize (Hx q eq_refl). lra.
Qed.



Lemma Forall_filter {A : Type} (P : A -> Prop) (p : A -> bool) l :
  Forall P l -> Forall P (filter p l).
Proof.
  rewrite !Forall_forall. intros H x Hx. apply H.
  apply filter_In in Hx. tauto.
Qed.


Lemma len_filter_le {A : Type} (p : A -> bool) (l : list A) :
  (0 <= len (filter p l) <= len l)%Z.
Proof.
  unfold len. pose proof (filter_length_le p l). lia.
Qed.


(** ** Regional delinquency KPIs *)

Lemma map_result_ok {A B : Type} (f : A -> result B) (P : A -> B -> Prop) l :
  (forall x, In x l -> exists y, f x = Ok y /\ P x y) ->
  exists ys, map_result f l = Ok ys /\ Forall2 P l ys.
Proof.
  induction l as [|x l IH]; intros H.
  - exists []. split; [reflexivity|constructor].
  - destruct (H x (or_introl eq_refl)) as [y [E Py]].
    destruct IH as [ys [Es F]]; [intros; apply H; now right|].
    exists (y :: ys). cbn [map_result]. rewrite E. cbn [bind]. rewrite Es.
    split; [reflexivity|now constructor].
Qed.

Lemma len_cons {A : Type} (x : A) l : len (x :: l) = (1 + len l)%Z.
Proof. unfold len. cbn [List.length]. lia. Qed.

Lemma len_nonneg {A : Type} (l : list A) : (0 <= len l)%Z.
Proof. unfold len. lia. Qed.

Lemma len_disjoint_filters {A : Type} (p q : A -> bool) l :
  (forall x, p x && q x = false) ->
  (len (filter p l) + len (filter q l) <= len l)%Z.
Proof.
  intros D. induction l as [|x l IH]; [unfold len; simpl; lia|].
  cbn [filter]. specialize (D x).
  destruct (p x), (q x); try discriminate D; rewrite ?len_cons; lia.
Qed.

Lemma in_1_90_not_over_90 d : in_1_90 d && over_90 d = false.
Proof.
  destruct d as [n|]; [|reflexivity]. unfold in_1_90, over_90.
  destruct (Z.leb_spec 1 n), (Z.leb_spec n 90), (Z.ltb_spec 90 n);
    try reflexivity; lia.
Qed.

Lemma int_rate_pct_value n total :
  (0 < total)%Z ->
  int_rate_pct n total = Ok (Some (inject_Z n / inject_Z total * 100)).
Proof.
  intros H. unfold int_rate_pct, int_div.
  destruct (Z.ltb_spec 0 total); [|lia].
  destruct (Z.eqb_spec total 0); [lia|]. reflexivity.
Qed.

Lemma sumZ_add {A : Type} (a b : A -> Z) l :
  sumZ (map (fun k => (a k + b k)%Z) l) = (sumZ (map a l) + sumZ (map b l))%Z.
Proof. induction l; simpl; lia. Qed.

Lemma sumZ_cons x l : sumZ (x :: l) = (x + sumZ l)%Z.
Proof. reflexivity. Qed.

Lemma sumZ_indicator_absent k ks :
  ~ In k ks ->
  sumZ (map (fun k' => if (k =? k')%string then 1%Z else 0%Z) ks) = 0%Z.
Proof.
  induction ks as [|k1 ks IH]; intros Hn; [reflexivity|].
  cbn [map]. rewrite sumZ_cons, IH by (intros C; apply Hn; now right).
  destruct (String.eqb_spec k k1) as [->|_]; [elim Hn; now left|reflexivity].
Qed.

Lemma sumZ_indicator k ks :
  NoDup ks -> In k ks ->
  sumZ (map (fun k' => if (k =? k')%string then 1%Z else 0%Z) ks) = 1%Z.
Proof.
  induction 1 as [|k0 ks Hn ND IH]; intros Hin; [destruct Hin|].
  cbn [map]. rewrite sumZ_cons.
  destruct (String.eqb_spec k k0) as [->|N].
  - now rewrite sumZ_indicator_absent.
  - rewrite IH; [reflexivity|]. destruct Hin; [congruence|assumption].
Qed.

(** Counting the rows of a frame key by key counts every row once. *)
Lemma count_by_key {A : Type} (f : A -> string) ks : forall l,
  NoDup ks -> (forall x, In x l -> In (f x) ks) ->
  sumZ (map (fun k => len (filter (fun x => (f x =? k)%string) l)) ks) = len l.
Proof.
  intros l ND. induction l as [|x l IH]; intros H.
  - cbn [filter]. clear. induction ks as [|k ks IHk]; [reflexivity|].
    cbn [map]. now rewrite sumZ_cons, IHk.
  - rewrite len_cons, <- IH by (intros; apply H; now right).
    rewrite <- (sumZ_indicator (f x) ks ND) by (apply H; now left).
    rewrite <- sumZ_add. f_equal. apply map_ext. intros k.
    cbn [filter]. destruct (f x =? k)%string; [apply len_cons|lia].
Qed.

(** The keys of [groupby]: every key of the frame once. *)
Lemma groupby_keys {A : Type} (key : A -> string) l :
  NoDup (map fst (groupby key l)) /\
  (forall k, In k (map fst (groupby key l)) <-> In k (map key l)) /\
  List.length (groupby key l) = List.length (unique (map key l)).
Proof.
  unfold groupby. rewrite map_map. cbn [fst]. rewrite map_id.
  pose proof (sort_values_perm String.leb (unique (map key l))) as P.
  split; [|split].
  - eapply Permutation_NoDup; [symmetry; exact P|apply unique_NoDup].
  - intros k. split; intros H.
    + apply unique_In. eapply Permutation_in; [exact P|exact H].
    + eapply Permutation_in; [symmetry; exact P|]. now apply unique_In.
  - rewrite length_map. now apply Permutation_length.
Qed.

Lemma unique_length_perm l l' :
  (forall k, In k l <-> In k l') ->
  List.length (unique l) = List.length (unique l').
Proof.
  intros H. apply Permutation_length. apply NoDup_Permutation;
    try apply unique_NoDup.
  intros k. now rewrite !unique_In.
Qed.

Lemma latest_per_loan_ids rows :
  NoDup (map lr_loan_id (latest_per_loan rows)) /\
  (forall k, In k (map lr_loan_id (latest_per_loan rows)) <->
             In k (map fd_loan_id rows)) /\
  len (latest_per_loan rows) = len (unique (map fd_loan_id rows)).
Proof.
  unfold latest_per_loan.
  set (sorted := sort_values _ rows).
  assert (Permutation sorted rows) as P by apply sort_values_perm.
  destruct (groupby_keys fd_loan_id sorted) as [ND [K L]].
  rewrite map_map. cbn [lr_loan_id].
  split; [exact ND|]. split.
  - intros k. rewrite (K k). split; apply Permutation_in;
      [|symmetry]; now apply Permutation_map.
  - unfold len. rewrite length_map, L. f_equal.
    apply unique_length_perm. intros k. split; apply Permutation_in;
      [|symmetry]; now apply Permutation_map.
Qed.

Lemma region_outstanding_nonneg active region :
  exists t, region_outstanding active region = Some t /\ 0 <= t.
Proof.
  unfold region_outstanding, sum_skipna. eexists. split; [reflexivity|].
  apply sum_valid_nonneg. apply Forall_map. apply Forall_forall.
  intros g _ q H.
  destruct (nsub _ _) as [v|]; [|discriminate]. injection H as <-.
  apply Q.le_max_l.
Qed.

Lemma regional_stats_ok active latest region :
  In region (map lr_region latest) ->
  exists k,
    regional_stats active latest region = Ok k /\
    (rk_region k = region /\
     rk_total_loans k =
       len (filter (fun l => (lr_region l =? region)%string) latest)) /\
    regional_row_ok k.
Proof.
  intros Hin. unfold regional_stats. cbv zeta.
  set (region_loans := filter _ latest).
  assert (1 <= len region_loans)%Z as Hpos.
  { apply in_map_iff in Hin. destruct Hin as [l [E Hl]].
    assert (In l region_loans) as Hr.
    { apply filter_In. split; [exact Hl|]. now apply String.eqb_eq. }
    destruct region_loans; [destruct Hr|]. rewrite len_cons.
    pose proof (len_nonneg region_loans). lia. }
  rewrite !int_rate_pct_value by lia. cbn [bind].
  eexists. split; [reflexivity|]. split; [split; reflexivity|].
  unfold regional_row_ok.
  cbn [rk_total_loans rk_early_delinquent_loans rk_npl_loans
       rk_defaulted_loans rk_early_delinquency_rate_pct rk_npl_rate_pct
       rk_default_rate_pct rk_total_outstanding_balance].
  split; [exact Hpos|]. split; [apply len_nonneg|].
  split; [apply len_nonneg|].
  split; [apply len_disjoint_filters; intros; apply in_1_90_not_over_90|].
  split; [apply len_filter_le|].
  repeat (split; [reflexivity|]).
  apply region_outstanding_nonneg.
Qed.

(** X12. [calculate_regional_delinquency_kpis] never raises
    ZeroDivisionError.  It returns one row per region; every region has at
    least one loan; its early-delinquent and its NPL loans are disjoint
    parts of its loans, so are its defaulted loans a part of them; its
    three rates are the counts over the total times 100; its outstanding
    balance is a number that is not negative; and the totals of the regions
    add up to the number of distinct approved loans with a fact row. *)
Theorem regional_kpis_partition_the_loans :
  forall fact_df dim_customer dim_loan,
  exists kpis,
    calculate_regional_delinquency_kpis fact_df dim_customer dim_loan
      = Ok kpis /\
    NoDup (map rk_region kpis) /\
    Forall regional_row_ok kpis /\
    sumZ (map rk_total_loans kpis) =
      len (unique (map fd_loan_id
                       (active_fact fact_df dim_customer dim_loan))).
Proof.
  intros fact_df dim_customer dim_loan.
  unfold calculate_regional_delinquency_kpis. cbv zeta.
  set (active := active_fact fact_df dim_customer dim_loan).
  set (latest := latest_per_loan active).
  destruct (map_result_ok (regional_stats active latest)
              (fun region k =>
                 (rk_region k = region /\
                  rk_total_loans k =
                    len (filter (fun l => (lr_region l =? region)%string)
                                latest)) /\
                 regional_row_ok k)
              (unique (map lr_region latest))) as [kpis [E F]].
  { intros region Hr. apply regional_stats_ok. now apply unique_In. }
  exists kpis. split; [exact E|].
  assert (map rk_region kpis = unique (map lr_region latest) /\
          map rk_total_loans kpis =
            map (fun region =>
                   len (filter (fun l => (lr_region l =? region)%string)
                               latest))
                (unique (map lr_region latest)) /\
          Forall regional_row_ok kpis) as [M1 [M2 M3]].
  { clear E. induction F as [|r k rs ks [[H1 H2] H3] F IH].
    - repeat split; constructor.
    - destruct IH as [I1 [I2 I3]]. cbn [map].
      rewrite H1, H2, I1, I2. repeat split. now constructor. }
  split; [rewrite M1; apply unique_NoDup|]. split; [exact M3|].
  rewrite M2.
  rewrite (count_by_key lr_region (unique (map lr_region latest)) latest).
  - apply latest_per_loan_ids.
  - apply unique_NoDup.
  - intros x Hx. apply unique_In. now apply in_map.
Qed.

(** ** Customer drilldown KPIs *)

Lemma map_option_ok {A B : Type} (f : A -> option B) (P : A -> B -> Prop) l :
  (forall x, In x l -> exists y, f x = Some y /\ P x y) ->
  exists ys, map_option f l = Some ys /\ Forall2 P l ys.
Proof.
  induction l as [|x l IH]; intros H.
  - exists []. split; [reflexivity|constructor].
  - destruct (H x (or_introl eq_refl)) as [y [E Py]].
    destruct IH as [ys [Es F]]; [intros; apply H; now right|].
    exists (y :: ys). cbn [map_option]. rewrite E, Es.
    split; [reflexivity|now constructor].
Qed.

Lemma clip_0_100 v :
  exists w, pymax (Some 0) (pymin (Some 100) (Some v)) = Some w /\
            0 <= w /\ w <= 100.
Proof.
  unfold pymax, pymin, nltb; simpl; qcases; simpl; qcases; simpl;
    eexists; (split; [reflexivity|]); split; lra.
Qed.

Lemma customer_transaction_score_bounds m :
  exists t, customer_transaction_score m = Some t /\ 0 <= t /\
            ((0 <= match m with Some d => d | None => 0 end)%Z -> t <= 100).
Proof.
  destruct m as [d|]; cbn [customer_transaction_score].
  - unfold pymax, nltb; simpl; qcases; simpl;
      eexists; (split; [reflexivity|]); (split; [lra|]); intros Hd;
      [lra|].
    assert (0 <= inject_Z d) as H0
      by (change 0 with (inject_Z 0); rewrite <- Zle_Qle; exact Hd).
    unfold Qdiv. change (/ 90) with (1 # 90). lra.
  - exists 100. split; [reflexivity|]. split; [lra|]. intros _. lra.
Qed.

Lemma weighted_risk_score_bounds c t h :
  0 <= t -> 0 <= h -> h <= 100 ->
  exists s, weighted_risk_score (Some c) (Some t) (Some h) = Some s /\
            0 <= s /\ (t <= 100 -> s <= 100).
Proof.
  intros Ht H0 H1. unfold weighted_risk_score. cbn [isna negb].
  assert (ndiv (nsub (Some c) (Some 300)) (Some (850 - 300)) =
          Some ((c - 300) / (850 - 300))) as -> by reflexivity.
  cbn [nmul lift2].
  destruct (clip_0_100 ((c - 300) / (850 - 300) * 100)) as [w [-> [W0 W1]]].
  cbn [nmul nadd lift2]. eexists. split; [reflexivity|]. split; [lra|].
  intros. lra.
Qed.

Lemma days_over_stored bound m :
  (0 <= bound)%Z ->
  days_over bound m = true <->
  (bound < match m with Some d => d | None => 0 end)%Z.
Proof.
  intros Hb. destruct m as [d|]; cbn [days_over].
  - apply Z.ltb_lt.
  - split; [discriminate|lia].
Qed.

Lemma repayment_share_bounds {A : Type} (p : A -> bool) (l : list A) :
  exists h,
    (if (0 <? len l)%Z
     then nmul (ndiv (Some (inject_Z (len (filter p l))))
                     (Some (inject_Z (len l))))
               (Some 100)
     else Some 0) = Some h /\ 0 <= h /\ h <= 100.
Proof.
  destruct (Z.ltb_spec 0 (len l)) as [Hl|Hl].
  - pose proof (len_filter_le p l) as [F0 F1].
    assert (0 < inject_Z (len l)) as Hq
      by (change 0 with (inject_Z 0); rewrite <- Zlt_Qlt; exact Hl).
    unfold ndiv. destruct (Qeq_bool (inject_Z (len l)) 0) eqn:Z.
    + apply Qeq_bool_iff in Z. lra.
    + eexists. split; [reflexivity|]. apply ratio_pct_bounds.
      * change 0 with (inject_Z 0). rewrite <- Zle_Qle. exact F0.
      * rewrite <- Zle_Qle. exact F1.
      * exact Hq.
  - exists 0. split; [reflexivity|]. split; lra.
Qed.

Lemma customer_stats_ok active customer_id :
  In customer_id (map fd_customer_id active) ->
  exists k,
    customer_stats active customer_id = Some k /\
    cd_customer_id k = customer_id /\ drilldown_row_ok k.
Proof.
  intros Hin. unfold customer_stats. cbv zeta.
  set (customer_data := filter _ active).
  assert (customer_data <> []) as Hne.
  { apply in_map_iff in Hin. destruct Hin as [d [E Hd]].
    assert (In d customer_data) as Hc.
    { apply filter_In. split; [exact Hd|]. now apply String.eqb_eq. }
    intros C. rewrite C in Hc. destruct Hc. }
  destruct customer_data as [|first rest] eqn:Ecd; [congruence|].
  rewrite <- Ecd. clear Hne.
  eexists. split; [reflexivity|]. split; [reflexivity|].
  unfold drilldown_row_ok.
  cbn [cd_total_loans cd_outstanding_balance cd_is_npl cd_is_delinquent
       cd_max_days_past_due cd_repayment_history_score cd_credit_score
       cd_customer_risk_score].
  set (latest := latest_per_loan customer_data).
  set (mx := max_skipna (map lr_days_past_due latest)).
  split.
  { unfold latest. destruct (latest_per_loan_ids customer_data) as [_ [_ ->]].
    rewrite Ecd. cbn [map unique drop_duplicates]. rewrite len_cons.
    match goal with |- (1 <= 1 + len ?l)%Z => pose proof (len_nonneg l) end.
    lia. }
  split.
  { unfold sum_skipna. cbn [nsub lift2].
    unfold pymax, nltb. qcases; eexists; (split; [reflexivity|]); lra. }
  split.
  { rewrite !days_over_stored by lia. lia. }
  split; [apply days_over_stored; lia|].
  split; [apply days_over_stored; lia|].
  destruct (repayment_share_bounds
              (fun d => (f_status (fd_fact d) =? "PAID")%string)
              customer_data) as [h [Eh [H0 H1]]].
  rewrite Eh.
  split; [now exists h|].
  split.
  { intros ->. reflexivity. }
  intros Hc. destruct (fd_credit_score first) as [c|] eqn:Ec;
    [|now elim Hc].
  destruct (customer_transaction_score_bounds mx) as [t [Et [T0 T1]]].
  rewrite Et.
  destruct (weighted_risk_score_bounds c t h T0 H0 H1) as [s [Es [S0 S1]]].
  exists s. split; [exact Es|]. split; [exact S0|].
  intros Hm. apply S1. now apply T1.
Qed.

(** X13. [calculate_customer_drilldown_kpis] never fails and returns one
    row per distinct customer_id of the approved fact rows, in order of
    first appearance.  On every row: the customer has at least one loan;
    the outstanding balance is a number that is not negative; is_npl
    implies is_delinquent, and both flags compare the reported
    max_days_past_due with 90 and with 0; the repayment history score lies
    between 0 and 100; the customer_risk_score is 0 when the credit score is
    missing and otherwise a number that is not negative, and at most 100
    when max_days_past_due is not negative. *)
Theorem customer_drilldown_rows :
  forall fact_df dim_customer dim_loan,
  exists rows,
    calculate_customer_drilldown_kpis fact_df dim_customer dim_loan
      = Some rows /\
    map cd_customer_id rows =
      unique (map fd_customer_id (active_fact fact_df dim_customer dim_loan)) /\
    NoDup (map cd_customer_id rows) /\
    Forall drilldown_row_ok rows.
Proof.
  intros fact_df dim_customer dim_loan.
  unfold calculate_customer_drilldown_kpis. cbv zeta.
  set (active := active_fact fact_df dim_customer dim_loan).
  destruct (map_option_ok (customer_stats active)
              (fun cid k => cd_customer_id k = cid /\ drilldown_row_ok k)
              (unique (map fd_customer_id active))) as [rows [E F]].
  { intros cid Hc. apply customer_stats_ok. now apply unique_In. }
  exists rows. split; [exact E|].
  assert (map cd_customer_id rows = unique (map fd_customer_id active) /\
          Forall drilldown_row_ok rows) as [M1 M2].
  { clear E. induction F as [|c k cs ks [H1 H2] F IH].
    - split; constructor.
    - destruct IH as [I1 I2]. cbn [map]. rewrite H1, I1.
      split; [reflexivity|now constructor]. }
  split; [exact M1|]. split; [rewrite M1; apply unique_NoDup|exact M2].
Qed.

(** ** The region of an address, field by field *)

Lemma split_field sep t : contains sep t = false -> split sep t = [t].
Proof.
  induction t as [|c t IH]; [reflexivity|]. cbn [contains split].
  intros H. apply orb_false_iff in H. destruct H as [Hc Ht].
  rewrite Hc, (IH Ht). reflexivity.
Qed.

Lemma split_field_sep sep t s :
  contains sep t = false ->
  split sep (t ++ String sep s) = t :: split sep s.
Proof.
  induction t as [|c t IH]; intros H.
  - cbn [String.append split]. now rewrite Ascii.eqb_refl.
  - cbn [contains] in H. apply orb_false_iff in H. destruct H as [Hc Ht].
    cbn [String.append split]. rewrite Hc, (IH Ht). reflexivity.
Qed.

(** [sep.join(fields).split(sep)] gives the fields back. *)
Lemma split_concat sep toks :
  toks <> [] ->
  Forall (fun t => contains sep t = false) toks ->
  split sep (String.concat (String sep EmptyString) toks) = toks.
Proof.
  induction toks as [|t toks IH]; [congruence|]. intros _ F.
  inversion F as [|? ? Ht Fs]; subst.
  destruct toks as [|u us].
  - cbn [String.concat]. now apply split_field.
  - rewrite concat_cons2. cbn [String.append].
    rewrite (split_field_sep _ _ _ Ht). f_equal.
    apply IH; [discriminate|exact Fs].
Qed.

Lemma split_tokens_free sep s :
  Forall (fun t => contains sep t = false) (split sep s).
Proof.
  induction s as [|c s IH]; [repeat constructor|]. cbn [split].
  destruct (c =? sep)%char eqn:E; [now constructor|].
  destruct (split sep s) as [|t ts]; [repeat constructor; cbn; now rewrite E|].
  inversion IH; subst. constructor; [|assumption].
  cbn [contains]. rewrite E. assumption.
Qed.

Lemma contains_lstrip c s :
  contains c s = false -> contains c (lstrip s) = false.
Proof.
  induction s as [|a s IH]; [reflexivity|]. intros H. cbn [lstrip].
  destruct (is_space a); [|exact H].
  cbn [contains] in H. apply orb_false_iff in H. now apply IH.
Qed.

Lemma contains_rstrip c s :
  contains c s = false -> contains c (rstrip s) = false.
Proof.
  induction s as [|a s IH]; [reflexivity|]. intros H.
  cbn [contains] in H. apply orb_false_iff in H. destruct H as [Ha Hs].
  cbn [rstrip]. specialize (IH Hs).
  destruct (rstrip s) as [|b t].
  - destruct (is_space a); [reflexivity|]. cbn [contains]. now rewrite Ha.
  - cbn [contains] in *. now rewrite Ha.
Qed.

Lemma contains_strip c s :
  contains c s = false -> contains c (strip s) = false.
Proof. intros H. now apply contains_lstrip, contains_rstrip. Qed.

Lemma rstrip_idem s : rstrip (rstrip s) = rstrip s.
Proof.
  induction s as [|a s IH]; [reflexivity|]. cbn [rstrip].
  destruct (rstrip s) as [|b t] eqn:E.
  - destruct (is_space a) eqn:Ea; [reflexivity|].
    cbn [rstrip]. now rewrite Ea.
  - cbn [rstrip]. cbn [rstrip] in IH. rewrite IH. reflexivity.
Qed.

Lemma lstrip_idem s : lstrip (lstrip s) = lstrip s.
Proof.
  induction s as [|a s IH]; [reflexivity|]. cbn [lstrip].
  destruct (is_space a) eqn:Ea; [exact IH|]. cbn [lstrip]. now rewrite Ea.
Qed.

Lemma rstrip_lstrip s : rstrip s = s -> rstrip (lstrip s) = lstrip s.
Proof.
  induction s as [|a s IH]; [reflexivity|]. intros H. cbn [lstrip].
  destruct (is_space a) eqn:Ea; [|exact H].
  apply IH. cbn [rstrip] in H. rewrite Ea in H.
  destruct (rstrip s) as [|b t]; [discriminate|].
  now injection H.
Qed.

Lemma strip_idem s : strip (strip s) = strip s.
Proof.
  unfold strip. rewrite (rstrip_lstrip (rstrip s)) by apply rstrip_idem.
  apply lstrip_idem.
Qed.

(** X14. The region rule on the fields of an address: when the address is
    the comma-joined list of at least two fields (strings without a
    comma), the region is the second-to-last field with the whitespace
    around it stripped, whatever stands in the other fields; an address
    that is one field gives "Unknown". *)
Theorem region_of_address_fields :
  forall front city rest,
    Forall field front -> field city -> field rest ->
    extract_region (Some (String.concat "," (front ++ [city; rest])))
      = strip city /\
    extract_region (Some rest) = "Unknown"%string.
Proof.
  intros front city rest Ff Fc Fr. split.
  - apply (extract_region_second_to_last _ front city rest).
    apply split_concat.
    + destruct front; discriminate.
    + apply Forall_app. split; [exact Ff|]. now repeat constructor.
  - apply (extract_region_single_token _ rest). now apply split_field.
Qed.

Lemma region_of_address_fields_witness :
  extract_region (Some "12 Elm St, Springfield , IL 62701"%string)
    = "Springfield"%string.
Proof.
  apply (region_of_address_fields
           ["12 Elm St"%string] " Springfield "%string " IL 62701"%string).
  - constructor; [reflexivity|constructor].
  - reflexivity.
  - reflexivity.
Defined.

(** X15. Every region is normalised: it holds no comma and no whitespace
    at either end (stripping it again changes nothing), so two addresses
    never fall into regions that differ only by surrounding blanks. *)
Theorem region_is_normalised :
  forall address,
    contains "," (extract_region address) = false /\
    strip (extract_region address) = extract_region address.
Proof.
  intros [x|]; [|split; reflexivity].
  unfold extract_region. cbv zeta.
  destruct (Nat.leb_spec 2 (List.length (split "," x))) as [H|H];
    [|split; reflexivity].
  split; [|apply strip_idem].
  apply contains_strip.
  pose proof (split_tokens_free "," x) as F.
  rewrite Forall_forall in F. apply F. apply nth_In. lia.
Qed.

(** ** The repayments transformer *)

Lemma div_le_iff a k : (a / ns_per_day <= k <-> a < (k + 1) * ns_per_day)%Z.
Proof.
  assert (0 < ns_per_day)%Z as Hn by reflexivity.
  pose proof (Z.div_mod a ns_per_day ltac:(lia)) as E.
  pose proof (Z.mod_pos_bound a ns_per_day Hn) as B.
  split; intros H; nia.
Qed.

Lemma classify_delinquency_cases n :
  (n <= 0)%Z /\ classify_delinquency (Some n) = "CURRENT"%string \/
  (1 <= n <= 30)%Z /\ classify_delinquency (Some n) = "1-30_DAYS"%string \/
  (31 <= n <= 60)%Z /\ classify_delinquency (Some n) = "31-60_DAYS"%string \/
  (61 <= n <= 90)%Z /\ classify_delinquency (Some n) = "61-90_DAYS"%string \/
  (90 < n)%Z /\ classify_delinquency (Some n) = "90+_DAYS"%string.
Proof.
  cbn [classify_delinquency].
  destruct (Z.leb_spec n 0); [left; split; [lia|reflexivity]|right].
  destruct (Z.leb_spec n 30); [left; split; [lia|reflexivity]|right].
  destruct (Z.leb_spec n 60); [left; split; [lia|reflexivity]|right].
  destruct (Z.leb_spec n 90); [left; split; [lia|reflexivity]|right].
  split; [lia|reflexivity].
Qed.

(** X16. The delinquency bucket of a silver row and the classes that the
    gold KPIs read off days_past_due are the same partition.  The bucket is
    UNKNOWN exactly when a date is missing; CURRENT exactly when the
    payment comes less than one full day after the due time; one of the
    three buckets up to 90 days exactly when the gold build counts the row
    as early delinquent (1 to 90 days); and 90+_DAYS exactly when the gold
    build counts it as non-performing (more than 90 days), that is when
    the payment comes 91 full days or more after the due time. *)
Theorem delinquency_bucket_matches_kpi_classes :
  forall payment_date due_date,
    let days := days_between payment_date due_date in
    let bucket := classify_delinquency days in
    (bucket = "UNKNOWN"%string <-> payment_date = None \/ due_date = None) /\
    (bucket = "CURRENT"%string <->
     exists p d, payment_date = Some p /\ due_date = Some d /\
                 (p - d < ns_per_day)%Z) /\
    (bucket = "1-30_DAYS"%string \/ bucket = "31-60_DAYS"%string \/
     bucket = "61-90_DAYS"%string <-> in_1_90 days = true) /\
    (bucket = "90+_DAYS"%string <-> over_90 days = true) /\
    (over_90 days = true <->
     exists p d, payment_date = Some p /\ due_date = Some d /\
                 (91 * ns_per_day <= p - d)%Z).
Proof.
  intros [p|] [d|]; cbv zeta; cbn [days_between].
  2-4: cbn [classify_delinquency in_1_90 over_90];
       (split; [split; [tauto|reflexivity]|]);
       (split; [split; [discriminate|];
                intros [? [? [? [? ?]]]]; discriminate|]);
       (split; [split; [intros [C|[C|C]]; discriminate|discriminate]|]);
       (split; [split; discriminate|]);
       (split; [discriminate|intros [? [? [? [? ?]]]]; discriminate]).
  pose proof (div_le_iff (p - d) 0) as D0.
  pose proof (div_le_iff (p - d) 90) as D90.
  set (n := ((p - d) / ns_per_day)%Z) in *.
  destruct (classify_delinquency_cases n)
    as [[H ->]|[[H ->]|[[H ->]|[[H ->]|[H ->]]]]];
    cbn [in_1_90 over_90];
    rewrite andb_true_iff, !Z.leb_le, Z.ltb_lt.
  all: split; [split; [discriminate|intros [C|C]; discriminate]|].
  all: split;
    [split;
     [try discriminate; intros _; exists p, d; repeat split; lia
     |intros [p' [d' [Ep [Ed Hl]]]]; injection Ep as <-; injection Ed as <-;
      try reflexivity; lia]|].
  all: split;
    [split;
     [try (intros [C|[C|C]]; discriminate); intros _; lia
     |intros C; try lia; tauto]|].
  all: split; [split; [try discriminate; intros _; lia
                      |intros C; try reflexivity; lia]|].
  all: split;
    [intros C; exists p, d; repeat split; lia
    |intros [p' [d' [Ep [Ed Hl]]]]; injection Ep as <-; injection Ed as <-;
     lia].
Qed.

Lemma StronglySorted_rev {A : Type} (R : A -> A -> Prop) l :
  StronglySorted R l -> StronglySorted (fun a b => R b a) (rev l).
Proof.
  induction 1 as [|x l S IH F]; [constructor|]. cbn [rev].
  induction (rev l) as [|y t IHt] eqn:E in IH, F, l, S |- *.
  - repeat constructor.
  - assert (forall z, In z (y :: t) -> R x z) as Hx.
    { intros z Hz. rewrite Forall_forall in F. apply F.
      apply in_rev. now rewrite E. }
    clear E F S l. revert IH Hx. generalize (y :: t). clear.
    induction l as [|z l IHl]; intros S Hx; [repeat constructor|].
    inversion S as [|? ? S' F']; subst. cbn [app].
    constructor.
    + apply IHl; [exact S'|]. intros w Hw. apply Hx. now right.
    + apply Forall_app. split; [exact F'|].
      constructor; [|constructor]. apply Hx. now left.
Qed.

Lemma StronglySorted_rev_inv {A : Type} (R : A -> A -> Prop) l :
  StronglySorted (fun a b => R b a) (rev l) -> StronglySorted R l.
Proof.
  intros H. apply StronglySorted_rev in H. now rewrite rev_involutive in H.
Qed.

Lemma StronglySorted_drop_duplicates {A : Type} (R : A -> A -> Prop)
    (key : A -> string) l :
  StronglySorted R l -> StronglySorted R (drop_duplicates key l).
Proof.
  induction 1 as [|x l S IH F]; [constructor|]. cbn [drop_duplicates].
  constructor.
  - now apply StronglySorted_filter.
  - rewrite Forall_forall in *. intros y Hy. apply F.
    apply filter_In in Hy. destruct Hy as [Hy _].
    now apply drop_duplicates_incl in Hy.
Qed.

Lemma StronglySorted_drop_duplicates_last {A : Type} (R : A -> A -> Prop)
    (key : A -> string) l :
  StronglySorted R l -> StronglySorted R (drop_duplicates_last key l).
Proof.
  intros S. unfold drop_duplicates_last. apply StronglySorted_rev_inv.
  rewrite rev_involutive. apply StronglySorted_drop_duplicates.
  now apply StronglySorted_rev.
Qed.

(** In a sorted frame the last row stands after every other row. *)
Lemma sorted_last_dominates {A : Type} (R : A -> A -> Prop) l s x :
  StronglySorted R l -> hd_error (rev l) = Some s -> In x l ->
  x = s \/ R x s.
Proof.
  intros S E Hx. apply StronglySorted_rev in S. apply in_rev in Hx.
  destruct (rev l) as [|y t]; [discriminate|]. injection E as ->.
  inversion S as [|? ? _ F]; subst. destruct Hx as [<-|Hx]; [now left|].
  right. rewrite Forall_forall in F. now apply F.
Qed.

Lemma silver_leb_total x y : silver_leb x y = true \/ silver_leb y x = true.
Proof. apply by_loan_and_date_total. Qed.

Lemma silver_leb_trans x y z :
  silver_leb x y = true -> silver_leb y z = true -> silver_leb x z = true.
Proof. apply by_loan_and_date_trans. Qed.

(** The transformer in one statement, shared below. *)
Lemma transform_loan_repayments_spec df :
  let out := transform_loan_repayments df in
  NoDup (map sr_repayment_id out) /\
  (forall id,
     In id (map sr_repayment_id out) <-> In id (map pr_repayment_id df)) /\
  StronglySorted (fun x y => silver_leb x y = true) out /\
  (forall s, In s out ->
     exists r, In r df /\ s = calculate_delinquency (with_standard_status r)) /\
  (forall s r, In s out -> In r df ->
     pr_repayment_id r = sr_repayment_id s ->
     silver_leb (calculate_delinquency (with_standard_status r)) s = true).
Proof.
  cbv zeta. unfold transform_loan_repayments. cbv zeta.
  set (rows := map calculate_delinquency (map with_standard_status df)).
  set (sorted := sort_values silver_leb rows).
  assert (StronglySorted (fun x y => silver_leb x y = true) sorted) as S
    by apply (sort_values_sorted _ silver_leb_total silver_leb_trans).
  assert (forall s, In s sorted <-> In s rows) as P.
  { intros s. split; apply Permutation_in; [|symmetry];
      apply sort_values_perm. }
  assert (forall s, In s rows <->
                    exists r, In r df /\
                              s = calculate_delinquency
                                    (with_standard_status r)) as Q.
  { intros s. unfold rows. rewrite map_map, in_map_iff.
    split; intros [r [H1 H2]]; exists r; now split. }
  split; [apply drop_duplicates_last_NoDup|].
  split.
  { intros id. rewrite drop_duplicates_last_keys. split; intros H.
    - apply in_map_iff in H. destruct H as [s [<- Hs]].
      apply P, Q in Hs. destruct Hs as [r [Hr ->]].
      apply in_map_iff. exists r. split; [reflexivity|exact Hr].
    - apply in_map_iff in H. destruct H as [r [<- Hr]].
      apply in_map_iff.
      exists (calculate_delinquency (with_standard_status r)).
      split; [reflexivity|]. apply P, Q. now exists r. }
  split; [now apply StronglySorted_drop_duplicates_last|].
  split.
  { intros s Hs. apply drop_duplicates_last_incl in Hs. now apply Q, P. }
  intros s r Hs Hr Hid.
  apply drop_duplicates_last_In in Hs. unfold last_with_key in Hs.
  set (row := calculate_delinquency (with_standard_status r)).
  assert (In row (filter (fun x => (sr_repayment_id x =? sr_repayment_id s)
                                   %string) sorted)) as Hin.
  { apply filter_In. split; [apply P, Q; now exists r|].
    apply String.eqb_eq. exact Hid. }
  destruct (sorted_last_dominates _ _ _ _
              (StronglySorted_filter _ _ _ S) Hs Hin) as [->|H];
    [|exact H].
  destruct (silver_leb_total s s); assumption.
Qed.

(** X17. What [transform_loan_repayments] writes to silver: no
    repayment_id twice, exactly the repayment_ids of the input, the rows in
    (loan_id, payment_date) order with a missing payment date last, every
    row made of one input row; and of the input rows that share a
    repayment_id the one kept is the last in that order, so a row whose
    payment date did not parse wins over the dated rows of the same
    loan. *)
Theorem transform_loan_repayments_output :
  forall df,
    let out := transform_loan_repayments df in
    NoDup (map sr_repayment_id out) /\
    (forall id,
       In id (map sr_repayment_id out) <-> In id (map pr_repayment_id df)) /\
    StronglySorted (fun x y => silver_leb x y = true) out /\
    (forall s, In s out ->
       exists r, In r df /\
                 s = calculate_delinquency (with_standard_status r)) /\
    (forall s r, In s out -> In r df ->
       pr_repayment_id r = sr_repayment_id s ->
       silver_leb (calculate_delinquency (with_standard_status r)) s = true) /\
    (forall r r', In r df -> In r' df ->
       pr_repayment_id r = pr_repayment_id r' ->
       pr_loan_id r = pr_loan_id r' ->
       pr_payment_date r = None -> forall p, pr_payment_date r' = Some p ->
       ~ In (calculate_delinquency (with_standard_status r')) out).
Proof.
  intros df. cbv zeta.
  destruct (transform_loan_repayments_spec df) as [N [K [S [I L]]]].
  repeat (split; [assumption|]).
  intros r r' Hr Hr' Eid Eloan Ed p Ep Hin.
  specialize (L _ r Hin Hr Eid). revert L.
  unfold silver_leb, by_loan_and_date, sr_loan_id, sr_payment_date.
  cbn [sr_rep calculate_delinquency with_standard_status r_loan_id
       r_payment_date pr_loan_id pr_payment_date].
  rewrite Eloan, String.eqb_refl, Ed, Ep. discriminate.
Qed.

Lemma transform_loan_repayments_output_witness :
  ~ In (calculate_delinquency (with_standard_status parsed_R1_on_time))
       (transform_loan_repayments
          [parsed_R1_unparsed_date; parsed_R2_late; parsed_R1_on_time]).
Proof.
  destruct (transform_loan_repayments_output
              [parsed_R1_unparsed_date; parsed_R2_late; parsed_R1_on_time])
    as [_ [_ [_ [_ [_ H]]]]].
  apply (H parsed_R1_unparsed_date parsed_R1_on_time) with (p := 3600000000000%Z);
    try reflexivity; simpl; tauto.
Defined.

Lemma sort_values_of_sorted {A : Type} (leb : A -> A -> bool) l :
  StronglySorted (fun a b => leb a b = true) l -> sort_values leb l = l.
Proof.
  induction 1 as [|x l S IH F]; [reflexivity|].
  cbn [sort_values fold_right]. fold (sort_values leb l). rewrite IH.
  apply insert_row_head. now apply Forall_forall.
Qed.

(** X18. The fact builder on a silver file of the transformer.  When
    dim_loan holds no loan_id twice, [build_fact_loan_performance] returns
    one fact row per silver row, in the order of the file (the sort inside
    [calculate_amortization] finds the rows already in place), and no
    repayment_id stands twice in the table of a first run, where the
    upsert returns the new rows as they are. *)
Theorem fact_rows_of_a_silver_file :
  forall now df dim_loan,
    NoDup (map dl_loan_id dim_loan) ->
    exists facts,
      build_fact_loan_performance now (silver_repayments df) dim_loan
        = Some facts /\
      map f_rep facts = silver_repayments df /\
      NoDup (map f_repayment_id
                 (apply_fact_loan_performance_upsert (Files []) facts)).
Proof.
  intros now df dim ND.
  destruct (transform_loan_repayments_spec df) as [N [_ [S _]]].
  unfold build_fact_loan_performance.
  destruct (calculate_amortization_spec (silver_repayments df) dim)
    as [out [E [I _]]].
  rewrite E. eexists. split; [reflexivity|].
  apply map_a_rep_inputs in I.
  assert (StronglySorted (fun x y => repayment_leb x y = true)
            (silver_repayments df)) as Sr.
  { unfold silver_repayments.
    apply (StronglySorted_map (fun x y => repayment_leb x y = true) sr_rep).
    exact S. }
  assert (sort_values loan_date_leb (merge_left (silver_repayments df) dim)
          = merge_left (silver_repayments df) dim) as Es.
  { apply sort_values_of_sorted.
    apply (StronglySorted_map (fun x y => repayment_leb x y = true) a_rep).
    now rewrite (merge_left_one_per_repayment _ _ ND). }
  rewrite Es, (merge_left_one_per_repayment _ _ ND) in I.
  assert (map f_rep
            (map (fun a => mkFact (a_rep a) (a_principal_paid a)
                             (a_interest_paid a) (a_outstanding_balance a)
                             (r_status (a_rep a) =? "MISSED")%string
                             (Some now)) out) = silver_repayments df) as M.
  { rewrite map_map. cbn [f_rep]. exact I. }
  split; [exact M|].
  cbn [apply_fact_loan_performance_upsert].
  replace (map f_repayment_id _) with (map sr_repayment_id
                                         (transform_loan_repayments df));
    [exact N|].
  change f_repayment_id with (fun f => r_repayment_id (f_rep f)).
  rewrite <- (map_map f_rep r_repayment_id), M.
  unfold silver_repayments. now rewrite map_map.
Qed.

Lemma fact_rows_of_a_silver_file_witness :
  exists facts,
    build_fact_loan_performance 7
      (silver_repayments
         [parsed_R1_unparsed_date; parsed_R2_late; parsed_R1_on_time])
      [scenario_loan] = Some facts /\
    map f_repayment_id facts = ["R2"; "R1"]%string.
Proof.
  destruct (fact_rows_of_a_silver_file 7
              [parsed_R1_unparsed_date; parsed_R2_late; parsed_R1_on_time]
              [scenario_loan]) as [facts [E [M _]]].
  - repeat constructor. simpl. tauto.
  - exists facts. split; [exact E|].
    change f_repayment_id with (fun f => r_repayment_id (f_rep f)).
    rewrite <- (map_map f_rep r_repayment_id), M. reflexivity.
Defined.

(** X19. The status standardisation of the transformer is idempotent, and
    the two statuses that the gold build tests for come from the listed
    spellings only: a silver status is MISSED exactly for the (upper-cased,
    stripped) inputs MISSED and MISS, and PAID exactly for PAID, COMPLETE
    and COMPLETED; only COMPLETE, COMPLETED, LATE PAYMENT and MISS are
    rewritten, every other text passes through unchanged. *)
Theorem standardize_status_idempotent :
  forall status,
    standardize_status (standardize_status status)
      = standardize_status status /\
    (standardize_status status = "MISSED"%string <->
     status = "MISSED"%string \/ status = "MISS"%string) /\
    (standardize_status status = "PAID"%string <->
     status = "PAID"%string \/ status = "COMPLETE"%string \/
     status = "COMPLETED"%string) /\
    (standardize_status status = status \/
     In status ["COMPLETE"; "COMPLETED"; "LATE PAYMENT"; "MISS"]%string).
Proof.
  intros s. unfold standardize_status, status_map. cbn [find fst snd].
  destruct (String.eqb_spec "PAID" s) as [<-|N1];
    [vm_compute; intuition (try discriminate; auto 8)|].
  destruct (String.eqb_spec "COMPLETE" s) as [<-|N2];
    [vm_compute; intuition (try discriminate; auto 8)|].
  destruct (String.eqb_spec "COMPLETED" s) as [<-|N3];
    [vm_compute; intuition (try discriminate; auto 8)|].
  destruct (String.eqb_spec "LATE" s) as [<-|N4];
    [vm_compute; intuition (try discriminate; auto 8)|].
  destruct (String.eqb_spec "LATE PAYMENT" s) as [<-|N5];
    [vm_compute; intuition (try discriminate; auto 8)|].
  destruct (String.eqb_spec "MISSED" s) as [<-|N6];
    [vm_compute; intuition (try discriminate; auto 8)|].
  destruct (String.eqb_spec "MISS" s) as [<-|N7];
    [vm_compute; intuition (try discriminate; auto 8)|].
  cbn [find fst snd].
  destruct (String.eqb_spec "PAID" s); [congruence|].
  destruct (String.eqb_spec "COMPLETE" s); [congruence|].
  destruct (String.eqb_spec "COMPLETED" s); [congruence|].
  destruct (String.eqb_spec "LATE" s); [congruence|].
  destruct (String.eqb_spec "LATE PAYMENT" s); [congruence|].
  destruct (String.eqb_spec "MISSED" s); [congruence|].
  destruct (String.eqb_spec "MISS" s); [congruence|].
  intuition congruence.
Qed.

(** ** The credit bureau transformer *)

Lemma int_of_float_bounds q (lo hi : Z) :
  (0 <= lo)%Z -> inject_Z lo <= q -> q <= inject_Z hi ->
  (lo <= int_of_float q <= hi)%Z.
Proof.
  intros L0 Hlo Hhi. destruct q as [n d]. unfold int_of_float.
  unfold Qle, inject_Z in *. cbn [Qnum Qden] in *.
  assert (0 <= n)%Z as Hn by nia.
  rewrite Z.quot_div_nonneg by lia.
  split.
  - apply Z.div_le_lower_bound; lia.
  - apply Z.div_le_upper_bound; lia.
Qed.

Lemma int_of_float_inject k : int_of_float (inject_Z k) = k.
Proof. unfold int_of_float, inject_Z. cbn [Qnum Qden]. apply Z.quot_1_r. Qed.

Lemma validate_credit_score_valid score :
  valid_or_missing (validate_credit_score score).
Proof.
  destruct score as [q|]; [|now left]. cbn [validate_credit_score].
  unfold nltb. qcases; cbn [negb orb]; try (now left).
  right. exists (int_of_float q). split; [reflexivity|].
  apply int_of_float_bounds; [lia|exact E|exact E0].
Qed.

Lemma validate_credit_score_fixed score :
  valid_or_missing score -> validate_credit_score score = score.
Proof.
  intros [->|[k [-> [H1 H2]]]]; [reflexivity|].
  cbn [validate_credit_score]. unfold nltb.
  assert (100 <= inject_Z k) as L
    by (change 100 with (inject_Z 100); now rewrite <- Zle_Qle).
  assert (inject_Z k <= 2000) as U
    by (change 2000 with (inject_Z 2000); now rewrite <- Zle_Qle).
  qcases; try contradiction. cbn [negb orb].
  now rewrite int_of_float_inject.
Qed.

Lemma drop_duplicates_fixed {A : Type} (key : A -> string) l :
  NoDup (map key l) -> drop_duplicates key l = l.
Proof.
  induction l as [|x l IH]; [reflexivity|]. cbn [map drop_duplicates].
  intros ND. inversion ND as [|? ? Hx ND']; subst.
  rewrite (IH ND'). f_equal. apply filter_all.
  intros y Hy. apply negb_true_iff.
  destruct (String.eqb_spec (key y) (key x)) as [E|]; [|reflexivity].
  elim Hx. rewrite <- E. now apply in_map.
Qed.

Lemma drop_duplicates_last_fixed {A : Type} (key : A -> string) l :
  NoDup (map key l) -> drop_duplicates_last key l = l.
Proof.
  intros ND. unfold drop_duplicates_last.
  rewrite drop_duplicates_fixed, rev_involutive; [reflexivity|].
  rewrite map_rev. now apply NoDup_rev.
Qed.

(** X20. What [transform_credit_bureau] writes to silver: no customer_id
    twice and exactly the customer_ids of the input; the row kept for a
    customer is made of the last input row of that customer; every
    credit_score is either missing or a whole number from 100 to 2000, and
    validating it again changes nothing; and the deduplication that
    [build_dim_customer] applies to the credit bureau rows leaves such a
    file as it is. *)
Theorem transform_credit_bureau_output :
  forall df,
    let out := transform_credit_bureau df in
    NoDup (map sb_customer_id out) /\
    (forall id,
       In id (map sb_customer_id out) <-> In id (map pb_customer_id df)) /\
    (forall s, In s out ->
       exists r, last_with_key pb_customer_id (sb_customer_id s) df = Some r /\
                 s = cleansed_bureau_row r) /\
    (forall s, In s out ->
       valid_or_missing (cb_credit_score (sb_row s)) /\
       validate_credit_score (cb_credit_score (sb_row s))
         = cb_credit_score (sb_row s)) /\
    drop_duplicates_last cb_customer_id (map sb_row out) = map sb_row out.
Proof.
  intros df. cbv zeta. unfold transform_credit_bureau.
  pose proof (drop_duplicates_last_NoDup sb_customer_id
                (map cleansed_bureau_row df)) as ND.
  split; [exact ND|]. split; [|split; [|split]].
  - intros id. rewrite drop_duplicates_last_keys, map_map. reflexivity.
  - intros s Hs. apply drop_duplicates_last_In in Hs.
    unfold last_with_key in *.
    revert Hs. generalize (sb_customer_id s). intros k.
    assert (filter (fun x => (sb_customer_id x =? k)%string)
              (map cleansed_bureau_row df) =
            map cleansed_bureau_row
              (filter (fun x => (pb_customer_id x =? k)%string) df)) as ->.
    { clear ND. induction df as [|r df IH]; [reflexivity|]. cbn [map filter].
      change (sb_customer_id (cleansed_bureau_row r)) with (pb_customer_id r).
      rewrite IH. destruct (pb_customer_id r =? k)%string; reflexivity. }
    rewrite <- map_rev.
    destruct (rev (filter _ df)) as [|r t]; [discriminate|].
    cbn [map hd_error]. intros E. injection E as <-. now exists r.
  - intros s Hs. apply drop_duplicates_last_incl in Hs.
    apply in_map_iff in Hs. destruct Hs as [r [<- _]].
    cbn [cleansed_bureau_row sb_row cb_credit_score].
    pose proof (validate_credit_score_valid (pb_credit_score r)) as V.
    split; [exact V|now apply validate_credit_score_fixed].
  - apply drop_duplicates_last_fixed.
    rewrite map_map. exact ND.
Qed.

Lemma length_drop n : forall s,
  String.length (drop n s) = (String.length s - n)%nat.
Proof.
  induction n as [|n IH]; intros [|a s]; cbn [drop String.length];
    try reflexivity; try lia. apply IH.
Qed.

Lemma drop_suffix n : forall s, exists front, s = (front ++ drop n s)%string.
Proof.
  induction n as [|n IH]; intros s.
  - now exists EmptyString.
  - destruct s as [|a s]; [now exists EmptyString|].
    destruct (IH s) as [front E]. exists (String a front).
    cbn [drop String.append]. now rewrite <- E.
Qed.

Lemma length_remove_char c s :
  (String.length (remove_char c s) <= String.length s)%nat.
Proof.
  induction s as [|a s IH]; [reflexivity|]. cbn [remove_char].
  destruct (a =? c)%char; cbn [String.length]; lia.
Qed.

Lemma contains_remove_same c s : contains c (remove_char c s) = false.
Proof.
  induction s as [|a s IH]; [reflexivity|]. cbn [remove_char].
  destruct (a =? c)%char eqn:E; [exact IH|]. cbn [contains].
  now rewrite E.
Qed.

Lemma contains_remove_other c c' s :
  contains c s = false -> contains c (remove_char c' s) = false.
Proof.
  induction s as [|a s IH]; [reflexivity|]. cbn [contains remove_char].
  intros H. apply orb_false_iff in H. destruct H as [Ha Hs].
  destruct (a =? c')%char; [now apply IH|]. cbn [contains].
  now rewrite Ha, IH.
Qed.

Lemma contains_drop c n : forall s,
  contains c s = false -> contains c (drop n s) = false.
Proof.
  induction n as [|n IH]; intros [|a s] H; cbn [drop]; try assumption.
  apply IH. cbn [contains] in H. apply orb_false_iff in H. tauto.
Qed.

(** A masked value is masked to itself. *)
Lemma mask_ssn_masked d :
  String.length d = 4%nat ->
  contains "-" d = false -> contains " " d = false ->
  mask_ssn ("XXX-XX-" ++ d) = ("XXX-XX-" ++ d)%string.
Proof.
  destruct d as [|a [|b [|c [|e [|? ?]]]]]; try discriminate. intros _.
  cbn [contains]. rewrite !orb_false_r, !orb_false_iff.
  intros [A1 [B1 [C1 E1]]] [A2 [B2 [C2 E2]]].
  unfold mask_ssn. cbn [String.append String.length Nat.ltb Nat.leb].
  cbv zeta.
  assert (remove_char " " (remove_char "-"
            (String "X" (String "X" (String "X" (String "-"
             (String "X" (String "X" (String "-"
              (String a (String b (String c (String e EmptyString))))))))))))
          = String "X" (String "X" (String "X" (String "X" (String "X"
              (String a (String b (String c (String e EmptyString)))))))))
    as ->.
  { cbn [remove_char]. cbn. rewrite A1, B1, C1, E1.
    cbn [remove_char]. cbn. now rewrite A2, B2, C2, E2. }
  reflexivity.
Qed.

(** X21. [mask_ssn] is idempotent.  It masks exactly the values that keep
    at least four characters once hyphens and blanks are removed: such a
    value becomes XXX-XX- followed by the last four of these characters;
    every other value, also one of four characters or more such as 1-2-3,
    is written to silver as it is. *)
Theorem mask_ssn_idempotent :
  forall ssn,
    let ssn_str := remove_char " " (remove_char "-" ssn) in
    mask_ssn (mask_ssn ssn) = mask_ssn ssn /\
    ((String.length ssn_str < 4)%nat /\ mask_ssn ssn = ssn \/
     (4 <= String.length ssn_str)%nat /\
     exists front last4,
       ssn_str = (front ++ last4)%string /\
       String.length last4 = 4%nat /\
       mask_ssn ssn = ("XXX-XX-" ++ last4)%string).
Proof.
  intros ssn. cbv zeta.
  set (t := remove_char " " (remove_char "-" ssn)).
  assert (String.length t <= String.length ssn)%nat as Hlen.
  { unfold t. pose proof (length_remove_char " " (remove_char "-" ssn)).
    pose proof (length_remove_char "-" ssn). lia. }
  assert ((String.length t < 4)%nat -> mask_ssn ssn = ssn) as Short.
  { intros H. unfold mask_ssn. cbv zeta. fold t.
    destruct (Nat.ltb_spec (String.length ssn) 4); [reflexivity|].
    destruct (Nat.leb_spec 4 (String.length t)); [lia|reflexivity]. }
  destruct (Nat.lt_ge_cases (String.length t) 4) as [H|H].
  - split; [now rewrite !(Short H)|]. left. split; [exact H|now apply Short].
  - set (d := drop (String.length t - 4) t).
    assert (mask_ssn ssn = ("XXX-XX-" ++ d)%string) as E.
    { unfold mask_ssn. cbv zeta. fold t.
      destruct (Nat.ltb_spec (String.length ssn) 4); [lia|].
      destruct (Nat.leb_spec 4 (String.length t)); [reflexivity|lia]. }
    assert (String.length d = 4%nat) as Ld
      by (unfold d; rewrite length_drop; lia).
    split.
    + rewrite E. apply mask_ssn_masked; [exact Ld| |].
      * apply contains_drop. unfold t.
        apply contains_remove_other, contains_remove_same.
      * apply contains_drop. unfold t. apply contains_remove_same.
    + right. split; [exact H|].
      destruct (drop_suffix (String.length t - 4) t) as [front Ef].
      exists front, d. split; [exact Ef|]. split; [exact Ld|exact E].
Qed.
